(** * pgo-analysis: a shallow embedding of [main.go] and its properties

    The program reads the output of the Go compiler's [-d=pgodebug=3]
    flag from standard input, collects the [CallStat] JSON records and the
    "inlining call to" log lines, sums the records per call kind, and
    prints a summary followed by the 100 hottest indirect calls.

    Conventions of the embedding:
    - Go [string]s are byte strings: [string] of the Standard Library;
    - [int64] is [Z] with the two's complement wrap-around written out;
    - [float64] is IEEE 754 binary64, as [spec_float] with precision 53
      and maximal exponent 1024;
    - [map[string][]string] is [gmap string (list string)];
    - [fmt.Printf] appends a call (format and arguments) to the output. *)

From Stdlib Require Import ZArith Lia Bool List Ascii String.
From Stdlib Require Import Permutation Sorted.
From Stdlib Require Import Floats.SpecFloat.
From stdpp Require Import base decidable option list strings gmap sorting.

Local Open Scope Z_scope.
Local Open Scope string_scope.

(* ================================================================= *)
(** ** int64 arithmetic *)

Module Int64.

Definition modulus : Z := 2 ^ 64.
Definition half_modulus : Z := 2 ^ 63.
Definition min_int : Z := - half_modulus.
Definition max_int : Z := half_modulus - 1.

(** The signed representative of [z] modulo [2^64]. *)
Definition wrap (z : Z) : Z := (z + half_modulus) mod modulus - half_modulus.

Definition in_range (z : Z) : Prop := min_int <= z <= max_int.

(** Go's [a + b] on [int64]; [a++] is [a += 1]. *)
Definition add (a b : Z) : Z := wrap (a + b).

End Int64.

(* ================================================================= *)
(** ** The record of a call site (from cmd/compile/internal/pgo) *)

Record CallStat := mkCallStat {
  Pkg : string;
  Pos : string;
  Caller : string;
  (* Call type. Interface must not be Direct. *)
  Direct : bool;
  Interface : bool;
  Weight : Z;
  Hottest : string;
  HottestWeight : Z;
  (* Devirtualized callee if != "". *)
  Devirtualized : string;
  DevirtualizedWeight : Z
}.

(** Go's zero value of the struct: what [var stat CallStat] holds. *)
Definition zero_CallStat : CallStat :=
  mkCallStat "" "" "" false false 0 "" 0 "" 0.

#[global] Instance CallStat_eq_dec : EqDecision CallStat.
Proof. solve_decision. Defined.

(** [s != ""] on Go strings. *)
Definition nonempty (s : string) : bool :=
  match s with EmptyString => false | String _ _ => true end.

(* ================================================================= *)
(** ** The per-kind sums and the aggregation loop of [run] *)

Record sum := mkSum {
  direct : Z;
  indirectFunc : Z;
  indirectMethod : Z
}.

Definition zero_sum : sum := mkSum 0 0 0.

Definition total (s : sum) : Z :=
  Int64.add (Int64.add (direct s) (indirectFunc s)) (indirectMethod s).

(** [x.direct += v] and its two siblings. *)
Definition add_direct (x : sum) (v : Z) : sum :=
  mkSum (Int64.add (direct x) v) (indirectFunc x) (indirectMethod x).
Definition add_indirectFunc (x : sum) (v : Z) : sum :=
  mkSum (direct x) (Int64.add (indirectFunc x) v) (indirectMethod x).
Definition add_indirectMethod (x : sum) (v : Z) : sum :=
  mkSum (direct x) (indirectFunc x) (Int64.add (indirectMethod x) v).

(** The five [var] declarations at the head of [run]. *)
Record sums := mkSums {
  count : sum;
  weight : sum;
  hottestWeight : sum;
  devirtualizedCount : sum;
  devirtualizedWeight : sum
}.

Definition zero_sums : sums :=
  mkSums zero_sum zero_sum zero_sum zero_sum zero_sum.

(** The three kinds a record is classified into. *)
Inductive kind := KDirect | KIndirectFunc | KIndirectMethod.

Definition kind_of (s : CallStat) : kind :=
  if Direct s then KDirect
  else if Interface s then KIndirectMethod
  else KIndirectFunc.

Definition proj_kind (k : kind) (x : sum) : Z :=
  match k with
  | KDirect => direct x
  | KIndirectFunc => indirectFunc x
  | KIndirectMethod => indirectMethod x
  end.

(** One iteration of [for _, s := range stats], branch by branch. *)
Definition accumulate (t : sums) (s : CallStat) : sums :=
  if Direct s then
    mkSums (add_direct (count t) 1)
           (add_direct (weight t) (Weight s))
           (add_direct (hottestWeight t) (Weight s))
           (devirtualizedCount t)
           (devirtualizedWeight t)
  else if Interface s then
    let t' :=
      mkSums (add_indirectMethod (count t) 1)
             (add_indirectMethod (weight t) (Weight s))
             (add_indirectMethod (hottestWeight t) (HottestWeight s))
             (devirtualizedCount t)
             (devirtualizedWeight t) in
    if nonempty (Devirtualized s) then
      mkSums (count t') (weight t') (hottestWeight t')
             (add_indirectMethod (devirtualizedCount t') 1)
             (add_indirectMethod (devirtualizedWeight t') (DevirtualizedWeight s))
    else t'
  else
    let t' :=
      mkSums (add_indirectFunc (count t) 1)
             (add_indirectFunc (weight t) (Weight s))
             (add_indirectFunc (hottestWeight t) (HottestWeight s))
             (devirtualizedCount t)
             (devirtualizedWeight t) in
    if nonempty (Devirtualized s) then
      mkSums (count t') (weight t') (hottestWeight t')
             (add_indirectFunc (devirtualizedCount t') 1)
             (add_indirectFunc (devirtualizedWeight t') (DevirtualizedWeight s))
    else t'.

Definition aggregate_from (t : sums) (stats : list CallStat) : sums :=
  fold_left accumulate stats t.

Definition aggregate (stats : list CallStat) : sums :=
  aggregate_from zero_sums stats.

(* ================================================================= *)
(** ** float64 and [pct] *)

Module Float64.

Definition prec : Z := 53.
Definition emax : Z := 1024.

(** [float64(n)] for an [int64] [n]: the nearest binary64, ties to even. *)
Definition of_int64 (n : Z) : spec_float := binary_normalize prec emax n 0 false.

Definition mul : spec_float -> spec_float -> spec_float := SFmul prec emax.
Definition div : spec_float -> spec_float -> spec_float := SFdiv prec emax.

Definition is_nan (f : spec_float) : bool :=
  match f with S754_nan => true | _ => false end.
Definition is_inf (f : spec_float) : bool :=
  match f with S754_infinity _ => true | _ => false end.
(** Neither a zero nor a finite number: what [math.IsNaN] or [math.IsInf]
    accepts. *)
Definition non_finite (f : spec_float) : bool := is_nan f || is_inf f.

End Float64.

(** [100 * float64(n) / float64(d)]: the product first, then the quotient. *)
Definition pct (n d : Z) : spec_float :=
  Float64.div (Float64.mul (Float64.of_int64 100) (Float64.of_int64 n))
              (Float64.of_int64 d).

(* ================================================================= *)
(** ** path/filepath on Unix: [Clean] and [Join] *)

Module filepath.

Definition Separator : ascii := "/"%char.
Definition IsPathSeparator (c : ascii) : bool := Ascii.eqb c Separator.
Definition is_dot (c : ascii) : bool := Ascii.eqb c "."%char.

(** [r == n || os.IsPathSeparator(path[r])] for the unread rest [path[r:]]. *)
Definition end_or_sep (rest : list ascii) : bool :=
  match rest with
  | [] => true
  | c :: _ => IsPathSeparator c
  end.

(** The output buffer of [Clean] is kept reversed: its head is the byte
    written last, its length is [out.w].

    [backtrack dotdot c buf] is the loop that follows [out.w--] in the
    [..] case: [c] is the byte at index [out.w], [buf] the bytes below. *)
Fixpoint backtrack (dotdot : nat) (c : ascii) (buf : list ascii) : list ascii :=
  if (dotdot <? length buf)%nat && negb (IsPathSeparator c) then
    match buf with
    | c' :: buf' => backtrack dotdot c' buf'
    | [] => []
    end
  else buf.

(** Copying a real path element, up to the next separator. *)
Fixpoint copy_element (rest buf : list ascii) : list ascii * list ascii :=
  match rest with
  | c :: rest' =>
      if IsPathSeparator c then (rest, buf) else copy_element rest' (c :: buf)
  | [] => ([], buf)
  end.

(** The loop [for r < n] of [Clean]; every turn reads at least one byte,
    so [length rest] turns are enough. *)
Fixpoint clean_loop (fuel : nat) (rooted : bool)
    (rest buf : list ascii) (dotdot : nat) : list ascii :=
  match fuel, rest with
  | O, _ => buf
  | _, [] => buf
  | S fuel, c :: rest1 =>
      if IsPathSeparator c then
        (* empty path element *)
        clean_loop fuel rooted rest1 buf dotdot
      else if is_dot c && end_or_sep rest1 then
        (* . element *)
        clean_loop fuel rooted rest1 buf dotdot
      else if is_dot c && is_dot (hd "/"%char rest1) && end_or_sep (tl rest1) then
        (* .. element: remove to last separator *)
        let rest2 := tl rest1 in
        if (dotdot <? length buf)%nat then
          (* can backtrack *)
          match buf with
          | c' :: buf' => clean_loop fuel rooted rest2 (backtrack dotdot c' buf') dotdot
          | [] => clean_loop fuel rooted rest2 buf dotdot
          end
        else if negb rooted then
          (* cannot backtrack, but not rooted, so append .. element *)
          let buf1 := if (0 <? length buf)%nat then Separator :: buf else buf in
          let buf2 := "."%char :: "."%char :: buf1 in
          clean_loop fuel rooted rest2 buf2 (length buf2)
        else clean_loop fuel rooted rest2 buf dotdot
      else
        (* real path element: add slash if needed, copy element *)
        let buf1 :=
          if (rooted && negb (length buf =? 1)%nat)
             || (negb rooted && negb (length buf =? 0)%nat)
          then Separator :: buf else buf in
        let '(rest', buf2) := copy_element rest buf1 in
        clean_loop fuel rooted rest' buf2 dotdot
  end.

Definition Clean (path : string) : string :=
  match list_ascii_of_string path with
  | [] => "."
  | c :: rest =>
      let rooted := IsPathSeparator c in
      let buf :=
        if rooted then clean_loop (length rest) rooted rest [Separator] 1
        else clean_loop (S (length rest)) rooted (c :: rest) [] 0 in
      (* Turn empty string into "." *)
      let buf := match buf with [] => ["."%char] | _ => buf end in
      string_of_list_ascii (rev buf)
  end.

(** [strings.Join(elem, "/")]. *)
Fixpoint join_sep (elem : list string) : string :=
  match elem with
  | [] => ""
  | [e] => e
  | e :: rest => e ++ "/" ++ join_sep rest
  end.

(** [Join]: leading empty elements are dropped, the rest is joined by
    the separator and cleaned. *)
Fixpoint Join (elem : list string) : string :=
  match elem with
  | [] => ""
  | e :: rest => if nonempty e then Clean (join_sep elem) else Join rest
  end.

End filepath.

(* ================================================================= *)
(** ** [normalizePos] *)

(** cmd/go takes absolute filenames and makes them relative if possible.
    This makes the log line positions not match the stat JSON.
    [normalizePos] undoes this; [cwd] is the package level variable,
    set once from [os.Getwd]. *)
Definition normalizePos (cwd pos : string) : string :=
  match pos with
  | String c _ => if Ascii.eqb c "/"%char then pos else filepath.Join [cwd; pos]
  | EmptyString => filepath.Join [cwd; pos]
  end.

(** The path [os.Getwd] returns is rooted. *)
Definition rooted (path : string) : Prop :=
  exists rest, path = String "/"%char rest.

(* ================================================================= *)
(** ** The pattern [inlinedCallRe]

    The pattern is: start of text, a group of one or more [\S], the
    literal [: inlining call to ], a group of any number of [.], end of
    text. It is matched the way the regexp package does: [\S+] is greedy
    and gives bytes back one at a time, [.] is any byte but a newline. The classes involved
    are ASCII, so matching bytes and matching runes agree. *)

Module regexp.

(** The Perl class [\s]: tab, newline, form feed, carriage return, space. *)
Definition is_space (c : ascii) : bool :=
  Ascii.eqb c "009"%char || Ascii.eqb c "010"%char || Ascii.eqb c "012"%char
  || Ascii.eqb c "013"%char || Ascii.eqb c " "%char.

Definition is_newline (c : ascii) : bool := Ascii.eqb c "010"%char.

Fixpoint no_newline (s : string) : bool :=
  match s with
  | EmptyString => true
  | String c s' => negb (is_newline c) && no_newline s'
  end.

Fixpoint all_nonspace (s : string) : bool :=
  match s with
  | EmptyString => true
  | String c s' => negb (is_space c) && all_nonspace s'
  end.

(** [trim_prefix p s] is [Some r] when [s = p ++ r]. *)
Fixpoint trim_prefix (p s : string) : option string :=
  match p, s with
  | EmptyString, _ => Some s
  | String a p', String b s' => if Ascii.eqb a b then trim_prefix p' s' else None
  | String _ _, EmptyString => None
  end.

Definition literal : string := ": inlining call to ".

(** The literal, the second group and the end of text, at the head of
    [rest]. *)
Definition match_tail (rest : string) : option string :=
  match trim_prefix literal rest with
  | Some sym => if no_newline sym then Some sym else None
  | None => None
  end.

(** [\S+] has consumed [taken]; it prefers to consume more and otherwise
    lets the rest of the pattern match from here. *)
Fixpoint match_nonspace (taken rest : string) : option (string * string) :=
  let stop :=
    if nonempty taken then
      match match_tail rest with
      | Some sym => Some (taken, sym)
      | None => None
      end
    else None in
  match rest with
  | String c rest' =>
      if is_space c then stop
      else match match_nonspace (taken ++ String c EmptyString) rest' with
           | Some m => Some m
           | None => stop
           end
  | EmptyString => stop
  end.

(** [inlinedCallRe.FindStringSubmatch]: [nil], or the whole match and
    the two groups. *)
Definition FindStringSubmatch (line : string) : list string :=
  match match_nonspace "" line with
  | Some (pos, sym) => [line; pos; sym]
  | None => []
  end.

End regexp.

(* ================================================================= *)
(** ** encoding/json, as far as [json.Unmarshal(line, &stat)] uses it *)

Module json.

(** A JSON text; a number keeps its literal, which the decoder hands to
    [strconv.ParseInt]. *)
#[warnings="-register-all"]
Inductive value :=
| Null
| Bool (b : bool)
| Number (lit : string)
| Str (s : string)
| Array (elems : list value)
| Object (members : list (string * value)).

(** The exported fields of [CallStat]; none carries a [json] tag, so
    each is known to the decoder under its Go name. *)
Inductive field :=
| FPkg | FPos | FCaller | FDirect | FInterface | FWeight
| FHottest | FHottestWeight | FDevirtualized | FDevirtualizedWeight.

Definition fields : list field :=
  [FPkg; FPos; FCaller; FDirect; FInterface; FWeight;
   FHottest; FHottestWeight; FDevirtualized; FDevirtualizedWeight].

Definition field_name (f : field) : string :=
  match f with
  | FPkg => "Pkg"
  | FPos => "Pos"
  | FCaller => "Caller"
  | FDirect => "Direct"
  | FInterface => "Interface"
  | FWeight => "Weight"
  | FHottest => "Hottest"
  | FHottestWeight => "HottestWeight"
  | FDevirtualized => "Devirtualized"
  | FDevirtualizedWeight => "DevirtualizedWeight"
  end.

Definition is_lower (c : ascii) : bool :=
  (N.leb 97 (N_of_ascii c) && N.leb (N_of_ascii c) 122)%N.

Definition to_upper (c : ascii) : ascii :=
  if is_lower c then ascii_of_N (N_of_ascii c - 32) else c.

(** [foldName]: ASCII letters go to upper case and every other rune to
    the least rune of its case-folding orbit. The only runes outside
    ASCII that fold to an ASCII letter are U+017F (bytes C5 BF, to [S])
    and U+212A (bytes E2 84 AA, to [K]); the names above are ASCII, so
    any other rune is left as it is. *)
Fixpoint foldName (s : string) : string :=
  match s with
  | EmptyString => EmptyString
  | String a s1 =>
      match s1 with
      | String b s2 =>
          if Ascii.eqb a "197"%char && Ascii.eqb b "191"%char then
            String "S"%char (foldName s2)
          else
            match s2 with
            | String c s3 =>
                if Ascii.eqb a "226"%char && Ascii.eqb b "132"%char
                   && Ascii.eqb c "170"%char
                then String "K"%char (foldName s3)
                else String (to_upper a) (foldName s1)
            | EmptyString => String (to_upper a) (foldName s1)
            end
      | EmptyString => String (to_upper a) EmptyString
      end
  end.

(** The field a member's key selects: an exact match, else a match
    under case folding. *)
Definition find_field (key : string) : option field :=
  match List.find (fun f => String.eqb (field_name f) key) fields with
  | Some f => Some f
  | None =>
      List.find (fun f => String.eqb (foldName (field_name f)) (foldName key)) fields
  end.

Fixpoint digits_value (acc : Z) (s : string) : option Z :=
  match s with
  | EmptyString => Some acc
  | String c s' =>
      let n := Z.of_N (N_of_ascii c) in
      if ((48 <=? n) && (n <=? 57))%Z then digits_value (10 * acc + (n - 48)) s'
      else None
  end.

(** [strconv.ParseInt(lit, 10, 64)] on a JSON number literal: [None] for
    a fraction, an exponent or a value outside [int64]. *)
Definition ParseInt (lit : string) : option Z :=
  let signed :=
    match lit with
    | String "-"%char (String c s' as ds) =>
        match digits_value 0 ds with Some n => Some (- n) | None => None end
    | String _ _ => digits_value 0 lit
    | EmptyString => None
    end in
  match signed with
  | Some n =>
      if ((Int64.min_int <=? n) && (n <=? Int64.max_int))%Z then Some n else None
  | None => None
  end.

Definition set_string (v : value) (old : string) : option string :=
  match v with Str s => Some s | Null => Some old | _ => None end.
Definition set_bool (v : value) (old : bool) : option bool :=
  match v with Bool b => Some b | Null => Some old | _ => None end.
Definition set_int64 (v : value) (old : Z) : option Z :=
  match v with Number lit => ParseInt lit | Null => Some old | _ => None end.

(** Storing a member's value in the field its key selected; [None] is
    an [UnmarshalTypeError]. A [null] leaves the field as it is. *)
Definition set_field (f : field) (v : value) (s : CallStat) : option CallStat :=
  match f with
  | FPkg => x ← set_string v (Pkg s);
      Some (mkCallStat x (Pos s) (Caller s) (Direct s) (Interface s) (Weight s)
              (Hottest s) (HottestWeight s) (Devirtualized s) (DevirtualizedWeight s))
  | FPos => x ← set_string v (Pos s);
      Some (mkCallStat (Pkg s) x (Caller s) (Direct s) (Interface s) (Weight s)
              (Hottest s) (HottestWeight s) (Devirtualized s) (DevirtualizedWeight s))
  | FCaller => x ← set_string v (Caller s);
      Some (mkCallStat (Pkg s) (Pos s) x (Direct s) (Interface s) (Weight s)
              (Hottest s) (HottestWeight s) (Devirtualized s) (DevirtualizedWeight s))
  | FDirect => x ← set_bool v (Direct s);
      Some (mkCallStat (Pkg s) (Pos s) (Caller s) x (Interface s) (Weight s)
              (Hottest s) (HottestWeight s) (Devirtualized s) (DevirtualizedWeight s))
  | FInterface => x ← set_bool v (Interface s);
      Some (mkCallStat (Pkg s) (Pos s) (Caller s) (Direct s) x (Weight s)
              (Hottest s) (HottestWeight s) (Devirtualized s) (DevirtualizedWeight s))
  | FWeight => x ← set_int64 v (Weight s);
      Some (mkCallStat (Pkg s) (Pos s) (Caller s) (Direct s) (Interface s) x
              (Hottest s) (HottestWeight s) (Devirtualized s) (DevirtualizedWeight s))
  | FHottest => x ← set_string v (Hottest s);
      Some (mkCallStat (Pkg s) (Pos s) (Caller s) (Direct s) (Interface s) (Weight s)
              x (HottestWeight s) (Devirtualized s) (DevirtualizedWeight s))
  | FHottestWeight => x ← set_int64 v (HottestWeight s);
      Some (mkCallStat (Pkg s) (Pos s) (Caller s) (Direct s) (Interface s) (Weight s)
              (Hottest s) x (Devirtualized s) (DevirtualizedWeight s))
  | FDevirtualized => x ← set_string v (Devirtualized s);
      Some (mkCallStat (Pkg s) (Pos s) (Caller s) (Direct s) (Interface s) (Weight s)
              (Hottest s) (HottestWeight s) x (DevirtualizedWeight s))
  | FDevirtualizedWeight => x ← set_int64 v (DevirtualizedWeight s);
      Some (mkCallStat (Pkg s) (Pos s) (Caller s) (Direct s) (Interface s) (Weight s)
              (Hottest s) (HottestWeight s) (Devirtualized s) x)
  end.

(** The members of an object, in order: a key that selects no field is
    skipped with its value; a later member overrides an earlier one. The
    decoder reports the first error only after the last member; the
    caller drops the record on any error, so stopping at once is the same. *)
Fixpoint decode_members (members : list (string * value)) (s : CallStat)
    : option CallStat :=
  match members with
  | [] => Some s
  | (key, v) :: rest =>
      match find_field key with
      | Some f => s' ← set_field f v s; decode_members rest s'
      | None => decode_members rest s
      end
  end.

(** Decoding a JSON text into a [CallStat]: an object fills fields,
    [null] changes nothing, anything else is a type error. *)
Definition decode (v : value) (s : CallStat) : option CallStat :=
  match v with
  | Object members => decode_members members s
  | Null => Some s
  | _ => None
  end.

(** *** A reader for JSON texts

    The syntax of RFC 8259 as the package checks it, and the unquoting of
    strings: escapes are replaced, a [\u] escape becomes the UTF-8 bytes
    of its rune (surrogate pairs joined, a lone surrogate replaced by
    U+FFFD), and bytes that are not valid UTF-8 become U+FFFD. The limit
    on the nesting depth is left out. *)

Definition code (c : ascii) : Z := Z.of_N (N_of_ascii c).
Definition byte (n : Z) : ascii := ascii_of_N (Z.to_N n).

Definition is_ws (c : ascii) : bool :=
  Ascii.eqb c " "%char || Ascii.eqb c "009"%char
  || Ascii.eqb c "010"%char || Ascii.eqb c "013"%char.

Fixpoint skip_ws (s : list ascii) : list ascii :=
  match s with
  | c :: s' => if is_ws c then skip_ws s' else s
  | [] => []
  end.

Definition is_digit (c : ascii) : bool :=
  ((48 <=? code c) && (code c <=? 57))%Z.

Definition hex_value (c : ascii) : option Z :=
  let n := code c in
  if ((48 <=? n) && (n <=? 57))%Z then Some (n - 48)%Z
  else if ((97 <=? n) && (n <=? 102))%Z then Some (n - 87)%Z
  else if ((65 <=? n) && (n <=? 70))%Z then Some (n - 55)%Z
  else None.

(** [getu4], past the backslash and the [u]. *)
Definition hex4 (a b c d : ascii) : option Z :=
  x1 ← hex_value a; x2 ← hex_value b; x3 ← hex_value c; x4 ← hex_value d;
  Some (((x1 * 16 + x2) * 16 + x3) * 16 + x4)%Z.

(** [utf8.EncodeRune] on a rune that is no surrogate and at most
    U+10FFFF. *)
Definition EncodeRune (r : Z) : list ascii :=
  (if r <? 128 then [byte r]
   else if r <? 2048 then [byte (192 + r / 64); byte (128 + r mod 64)]
   else if r <? 65536 then
     [byte (224 + r / 4096); byte (128 + (r / 64) mod 64); byte (128 + r mod 64)]
   else
     [byte (240 + r / 262144); byte (128 + (r / 4096) mod 64);
      byte (128 + (r / 64) mod 64); byte (128 + r mod 64)])%Z.

Definition ReplacementChar : Z := 65533.

Definition is_surrogate (r : Z) : bool := ((55296 <=? r) && (r <? 57344))%Z.

(** [utf16.DecodeRune]: the rune of a surrogate pair, U+FFFD otherwise. *)
Definition utf16_DecodeRune (r1 r2 : Z) : Z :=
  (if (55296 <=? r1) && (r1 <? 56320) && (56320 <=? r2) && (r2 <? 57344)
   then (r1 - 55296) * 1024 + (r2 - 56320) + 65536
   else ReplacementChar)%Z.

Definition between (lo x hi : Z) : bool := ((lo <=? x) && (x <=? hi))%Z.

(** The width of the UTF-8 encoding that starts with the byte [c] and
    goes on with [rest]; [0] when [utf8.DecodeRune] answers
    [(RuneError, 1)]. *)
Definition utf8_width (c : Z) (rest : list ascii) : nat :=
  let cont (b : ascii) := between 128 (code b) 191 in
  match rest with
  | b1 :: rest1 =>
      let x1 := code b1 in
      if between 194 c 223 then (if cont b1 then 2 else 0)%nat
      else if between 224 c 239 then
        let lo := if (c =? 224)%Z then 160%Z else 128%Z in
        let hi := if (c =? 237)%Z then 159%Z else 191%Z in
        match rest1 with
        | b2 :: _ => if between lo x1 hi && cont b2 then 3%nat else 0%nat
        | [] => 0%nat
        end
      else if between 240 c 244 then
        let lo := if (c =? 240)%Z then 144%Z else 128%Z in
        let hi := if (c =? 244)%Z then 143%Z else 191%Z in
        match rest1 with
        | b2 :: b3 :: _ =>
            if between lo x1 hi && cont b2 && cont b3 then 4%nat else 0%nat
        | _ => 0%nat
        end
      else 0%nat
  | [] => 0%nat
  end.

Definition simple_escape (e : ascii) : option ascii :=
  if Ascii.eqb e "034"%char then Some "034"%char
  else if Ascii.eqb e "092"%char then Some "092"%char
  else if Ascii.eqb e "/"%char then Some "/"%char
  else if Ascii.eqb e "b"%char then Some "008"%char
  else if Ascii.eqb e "f"%char then Some "012"%char
  else if Ascii.eqb e "n"%char then Some "010"%char
  else if Ascii.eqb e "r"%char then Some "013"%char
  else if Ascii.eqb e "t"%char then Some "009"%char
  else None.

(** A string, past its opening quote. [acc] holds the bytes unquoted so
    far, reversed; [pending] counts the bytes still to copy of a rune
    whose encoding was found valid. *)
Fixpoint parse_string (s acc : list ascii) (pending : nat)
    : option (string * list ascii) :=
  match s with
  | [] => None
  | c :: r =>
      match pending with
      | S pending' => parse_string r (c :: acc) pending'
      | O =>
          if Ascii.eqb c "034"%char then Some (string_of_list_ascii (rev acc), r)
          else if Ascii.eqb c "092"%char then
            match r with
            | e :: r1 =>
                if Ascii.eqb e "u"%char then
                  match r1 with
                  | h1 :: h2 :: h3 :: h4 :: r2 =>
                      match hex4 h1 h2 h3 h4 with
                      | Some rr =>
                          if is_surrogate rr then
                            match r2 with
                            | b :: u :: k1 :: k2 :: k3 :: k4 :: r3 =>
                                let dec :=
                                  if Ascii.eqb b "092"%char && Ascii.eqb u "u"%char then
                                    match hex4 k1 k2 k3 k4 with
                                    | Some rr1 => utf16_DecodeRune rr rr1
                                    | None => ReplacementChar
                                    end
                                  else ReplacementChar in
                                if (dec =? ReplacementChar)%Z then
                                  parse_string r2 (rev (EncodeRune ReplacementChar) ++ acc) 0
                                else parse_string r3 (rev (EncodeRune dec) ++ acc) 0
                            | _ => parse_string r2 (rev (EncodeRune ReplacementChar) ++ acc) 0
                            end
                          else parse_string r2 (rev (EncodeRune rr) ++ acc) 0
                      | None => None
                      end
                  | _ => None
                  end
                else
                  match simple_escape e with
                  | Some x => parse_string r1 (x :: acc) 0
                  | None => None
                  end
            | [] => None
            end
          else if (code c <? 32)%Z then None
          else if (code c <? 128)%Z then parse_string r (c :: acc) 0
          else
            match utf8_width (code c) r with
            | O => parse_string r (rev (EncodeRune ReplacementChar) ++ acc) 0
            | S n => parse_string r (c :: acc) n
            end
      end
  end.

Fixpoint span_digits (s : list ascii) : list ascii * list ascii :=
  match s with
  | c :: s' =>
      if is_digit c then let '(ds, r) := span_digits s' in (c :: ds, r)
      else ([], s)
  | [] => ([], [])
  end.

(** A number: an optional minus, [0] or a digit string without a leading
    zero, an optional fraction, an optional exponent. *)
Definition parse_number (s : list ascii) : option (string * list ascii) :=
  let '(sign, s1) :=
    match s with
    | c :: r => if Ascii.eqb c "-"%char then ([c], r) else ([], s)
    | [] => ([], s)
    end in
  let '(int, s2) := span_digits s1 in
  match int with
  | [] => None
  | d :: ds =>
      if Ascii.eqb d "0"%char && negb (length ds =? 0)%nat then
        (* a leading zero ends the number: what follows is no JSON *)
        None
      else
        let frac :=
          match s2 with
          | c :: r =>
              if Ascii.eqb c "."%char then
                match span_digits r with
                | ([], _) => None
                | (fs, r') => Some (c :: fs, r')
                end
              else Some ([], s2)
          | [] => Some ([], s2)
          end in
        match frac with
        | None => None
        | Some (fs, s3) =>
            let exp :=
              match s3 with
              | c :: r =>
                  if Ascii.eqb c "e"%char || Ascii.eqb c "E"%char then
                    let '(sg, r1) :=
                      match r with
                      | c1 :: r' =>
                          if Ascii.eqb c1 "+"%char || Ascii.eqb c1 "-"%char
                          then ([c1], r') else ([], r)
                      | [] => ([], r)
                      end in
                    match span_digits r1 with
                    | ([], _) => None
                    | (es, r2) => Some (c :: sg ++ es, r2)
                    end
                  else Some ([], s3)
              | [] => Some ([], s3)
              end in
            match exp with
            | None => None
            | Some (es, s4) =>
                Some (string_of_list_ascii (sign ++ int ++ fs ++ es), s4)
            end
        end
  end.

(** [expect word s]: [s] without its prefix [word]. *)
Fixpoint expect (word : list ascii) (s : list ascii) : option (list ascii) :=
  match word, s with
  | [], _ => Some s
  | a :: word', b :: s' => if Ascii.eqb a b then expect word' s' else None
  | _ :: _, [] => None
  end.

(** Values, the members of an object after its brace, the elements of
    an array after its bracket. Every call reads a byte before it calls
    again, so the length of the text bounds the [fuel] needed. *)
Fixpoint parse_value (fuel : nat) (s : list ascii) : option (value * list ascii) :=
  match fuel with
  | O => None
  | S fuel =>
      match skip_ws s with
      | [] => None
      | c :: r =>
          if Ascii.eqb c "{"%char then
            match skip_ws r with
            | c2 :: r2 =>
                if Ascii.eqb c2 "}"%char then Some (Object [], r2)
                else parse_members fuel (c2 :: r2) []
            | [] => None
            end
          else if Ascii.eqb c "["%char then
            match skip_ws r with
            | c2 :: r2 =>
                if Ascii.eqb c2 "]"%char then Some (Array [], r2)
                else parse_elements fuel (c2 :: r2) []
            | [] => None
            end
          else if Ascii.eqb c "034"%char then
            '(str, r') ← parse_string r [] 0; Some (Str str, r')
          else if Ascii.eqb c "t"%char then
            r' ← expect (list_ascii_of_string "rue") r; Some (Bool true, r')
          else if Ascii.eqb c "f"%char then
            r' ← expect (list_ascii_of_string "alse") r; Some (Bool false, r')
          else if Ascii.eqb c "n"%char then
            r' ← expect (list_ascii_of_string "ull") r; Some (Null, r')
          else
            '(lit, r') ← parse_number (c :: r); Some (Number lit, r')
      end
  end
with parse_members (fuel : nat) (s : list ascii) (acc : list (string * value))
    : option (value * list ascii) :=
  match fuel with
  | O => None
  | S fuel =>
      match skip_ws s with
      | q :: r =>
          if Ascii.eqb q "034"%char then
            '(key, r1) ← parse_string r [] 0;
            match skip_ws r1 with
            | colon :: r2 =>
                if Ascii.eqb colon ":"%char then
                  '(v, r3) ← parse_value fuel r2;
                  match skip_ws r3 with
                  | d :: r4 =>
                      if Ascii.eqb d ","%char then
                        parse_members fuel r4 ((key, v) :: acc)
                      else if Ascii.eqb d "}"%char then
                        Some (Object (rev ((key, v) :: acc)), r4)
                      else None
                  | [] => None
                  end
                else None
            | [] => None
            end
          else None
      | [] => None
      end
  end
with parse_elements (fuel : nat) (s : list ascii) (acc : list value)
    : option (value * list ascii) :=
  match fuel with
  | O => None
  | S fuel =>
      '(v, r1) ← parse_value fuel s;
      match skip_ws r1 with
      | d :: r2 =>
          if Ascii.eqb d ","%char then parse_elements fuel r2 (v :: acc)
          else if Ascii.eqb d "]"%char then Some (Array (rev (v :: acc)), r2)
          else None
      | [] => None
      end
  end.

(** A whole text: one value, white space around it, and nothing more. *)
Definition parse (text : string) : option value :=
  let s := list_ascii_of_string text in
  match parse_value (S (length s)) s with
  | Some (v, r) => match skip_ws r with [] => Some v | _ :: _ => None end
  | None => None
  end.

(** Test texts are written with an apostrophe for the double quote. *)
Definition quoted (text : string) : string :=
  string_of_list_ascii
    (map (fun c => if Ascii.eqb c "'"%char then "034"%char else c)
         (list_ascii_of_string text)).

End json.

(* ================================================================= *)
(** ** Standard input and standard output *)

(** A Go [error], by its message. *)
Definition error : Type := string.

(** What the [bufio.Scanner] over [os.Stdin] delivers: the lines that
    [Scan] yields until it returns false, and what [Err] reports then
    ([None] at the end of the input, the fault otherwise). *)
Record Stdin := mkStdin {
  lines : list string;
  read_err : option error
}.

(** An operand of [fmt.Printf]. A string built by [fmt.Sprintf] is kept
    as the call that builds it. *)
#[warnings="-register-all"]
Inductive arg :=
| AStr (s : string)
| AInt (n : Z)
| AFloat (f : spec_float)
| ASprintf (format : string) (args : list arg).

(** A call of [fmt.Printf]: the format as it is written in the source
    (escape sequences not expanded) and the operands. Standard output is
    the list of the calls made, in order. *)
Record printf := Printf {
  format : string;
  args : list arg
}.

(* ================================================================= *)
(** ** [sort.Slice]

    The package promises a permutation of the slice in which no element
    is [less] than one before it; the order of elements that compare
    equal is not specified (the sort is not stable). *)

Definition SortSlice {A} (less : A -> A -> bool) (before after : list A) : Prop :=
  Permutation before after /\
  StronglySorted (fun a b => less b a = false) after.

(** One sort that keeps the promise (see [insertion_sort_SortSlice]). *)
Fixpoint insert_sorted {A} (less : A -> A -> bool) (x : A) (l : list A) : list A :=
  match l with
  | [] => [x]
  | y :: l' => if less x y then x :: l else y :: insert_sorted less x l'
  end.

Fixpoint insertion_sort {A} (less : A -> A -> bool) (l : list A) : list A :=
  match l with
  | [] => []
  | x :: l' => insert_sorted less x (insertion_sort less l')
  end.

(** The [less] function handed to [sort.Slice] in [run], on the two
    elements [stats[i]] and [stats[j]]. *)
Definition less (a b : CallStat) : bool :=
  if negb (HottestWeight a =? HottestWeight b)%Z then
    (HottestWeight a <? HottestWeight b)%Z
  else if negb (String.eqb (Pkg a) (Pkg b)) then
    String.ltb (Pkg a) (Pkg b)
  else String.ltb (Pos a) (Pos b).

(* ================================================================= *)
(** ** [readStats] and [run] *)

Section Program.

(** The working directory captured at start-up. *)
Variable cwd : string.

(** The syntax check and the reading of a JSON text by encoding/json:
    [None] is a [SyntaxError]. [json.parse] is one such reader. *)
Variable syntax : string -> option json.value.

(** [json.Unmarshal(line, &stat)]; [None] is a non-nil error. *)
Definition Unmarshal (line : string) (stat : CallStat) : option CallStat :=
  v ← syntax line; json.decode v stat.

(** [inlined[pos]]: a missing key reads as the nil slice. *)
Definition at_pos (inlined : gmap string (list string)) (pos : string) : list string :=
  default [] (inlined !! pos).

(** The body of [for scanner.Scan()]. *)
Definition scan_line (acc : list CallStat * gmap string (list string))
    (line : string) : list CallStat * gmap string (list string) :=
  let '(stats, inlined) := acc in
  let m := regexp.FindStringSubmatch line in
  let inlined :=
    if (length m =? 3)%nat then
      let pos := normalizePos cwd (nth 1 m "") in
      <[pos := (at_pos inlined pos ++ [nth 2 m ""])%list]> inlined
    else inlined in
  match Unmarshal line zero_CallStat with
  | None => (stats, inlined)
  | Some stat => ((stats ++ [stat])%list, inlined)
  end.

Definition readStats (stdin : Stdin)
    : list CallStat * gmap string (list string) * option error :=
  let '(stats, inlined) := fold_left scan_line (lines stdin) ([], ∅) in
  match read_err stdin with
  | Some err => ([], ∅, Some err)
  | None => (stats, inlined, None)
  end.

End Program.

(** The summary that [run] prints once the sums are known. *)
Definition print_sums (t : sums) : list printf :=
  let count := count t in
  let weight := weight t in
  let hottestWeight := hottestWeight t in
  let devirtualizedCount := devirtualizedCount t in
  let devirtualizedWeight := devirtualizedWeight t in
  [ Printf "Call count breakdown:\n" [];
    Printf "\tTotal: %d\n" [AInt (total count)];
    Printf "\tDirect: %d (%.2f%% of total)\n"
      [AInt (direct count); AFloat (pct (direct count) (total count))];
    Printf "\tIndirect func: %d (%.2f%% of total)\n"
      [AInt (indirectFunc count); AFloat (pct (indirectFunc count) (total count))];
    Printf "\tInterface method: %d (%.2f%% of total)\n"
      [AInt (indirectMethod count); AFloat (pct (indirectMethod count) (total count))];

    Printf "Call weight breakdown:\n" [];
    Printf "\tTotal: %d\n" [AInt (total weight)];
    Printf "\tDirect: %d (%.2f%% of total)\n"
      [AInt (direct weight); AFloat (pct (direct weight) (total weight))];
    Printf "\tIndirect func: %d (%.2f%% of total)\n"
      [AInt (indirectFunc weight); AFloat (pct (indirectFunc weight) (total weight))];
    Printf "\tInterface method: %d (%.2f%% of total)\n"
      [AInt (indirectMethod weight); AFloat (pct (indirectMethod weight) (total weight))];

    Printf "Call hottest weight breakdown:\n" [];
    Printf "\tTotal: %d (%.2f%% of total)\n"
      [AInt (total hottestWeight); AFloat (pct (total hottestWeight) (total weight))];
    Printf "\tDirect: %d (%.2f%% of direct)\n"
      [AInt (direct hottestWeight); AFloat (pct (direct hottestWeight) (direct weight))];
    Printf "\tIndirect func: %d (%.2f%% of indirect func)\n"
      [AInt (indirectFunc hottestWeight);
       AFloat (pct (indirectFunc hottestWeight) (indirectFunc weight))];
    Printf "\tInterface method: %d (%.2f%% of interface method)\n"
      [AInt (indirectMethod hottestWeight);
       AFloat (pct (indirectMethod hottestWeight) (indirectMethod weight))];

    Printf "Devirtualized interface call count: %d (%.2f%% of total, %.2f%% of interface method)\n"
      [AInt (indirectMethod devirtualizedCount);
       AFloat (pct (indirectMethod devirtualizedCount) (total count));
       AFloat (pct (indirectMethod devirtualizedCount) (indirectMethod count))];
    Printf "Devirtualized interface call weight: %d (%.2f%% of total, %.2f%% of interface method)\n"
      [AInt (indirectMethod devirtualizedWeight);
       AFloat (pct (indirectMethod devirtualizedWeight) (total weight));
       AFloat (pct (indirectMethod devirtualizedWeight) (indirectMethod weight))];
    Printf "Devirtualized function call count: %d (%.2f%% of total, %.2f%% of indirect func)\n"
      [AInt (indirectFunc devirtualizedCount);
       AFloat (pct (indirectFunc devirtualizedCount) (total count));
       AFloat (pct (indirectFunc devirtualizedCount) (indirectFunc count))];
    Printf "Devirtualized function call weight: %d (%.2f%% of total, %.2f%% of indirect func)\n"
      [AInt (indirectFunc devirtualizedWeight);
       AFloat (pct (indirectFunc devirtualizedWeight) (total weight));
       AFloat (pct (indirectFunc devirtualizedWeight) (indirectFunc weight))] ].

Definition topCount : nat := 100.

(** The line of one listed call. *)
Definition call_line (s : CallStat) : printf :=
  let spec :=
    if nonempty (Devirtualized s) then "    Devirtualized" else "NOT Devirtualized" in
  let specExtra :=
    if nonempty (Devirtualized s)
       && negb (String.eqb (Devirtualized s) (Hottest s))
    then ASprintf "\t(devirtualized to %s weight %d)"
           [AStr (Devirtualized s); AInt (DevirtualizedWeight s)]
    else AStr "" in
  let typ := if negb (Interface s) then " function" else "interface" in
  Printf "\t(%s) (%s) %-40s -> %-40s (weight %d, %.2f%% of callsite weight)%s\t%s\n"
    [AStr spec; AStr typ; AStr (Caller s); AStr (Hottest s);
     AInt (HottestWeight s); AFloat (pct (HottestWeight s) (Weight s));
     specExtra; AStr (Pos s)].

Definition inlined_line (sym : string) : printf :=
  Printf "\t\tinlined %s\n" [AStr sym].

(** The lines of one listed call: the call itself, then one line for
    each symbol of [inlined[s.Pos]]. *)
Definition print_call (inlined : gmap string (list string)) (s : CallStat)
    : list printf :=
  call_line s :: map inlined_line (at_pos inlined (Pos s)).

(** The variables of the listing loop. *)
Record top := mkTop {
  top_out : list printf;
  printed : nat;
  topWeight : Z;
  topHottestWeight : Z
}.

Definition top_start : top := mkTop [] 0 0 0.

(** The body of the loop from [spec := ...] on, for a call that is not
    direct. *)
Definition list_call (inlined : gmap string (list string)) (s : CallStat) (t : top)
    : top :=
  mkTop (top_out t ++ print_call inlined s)%list
        (S (printed t))
        (Int64.add (topWeight t) (Weight s))
        (Int64.add (topHottestWeight t) (HottestWeight s)).

(** [for i := len(stats) - 1; i >= 0 && printed < topCount; i--], with
    [n = i + 1] and the bound [K] in the place of [topCount]. *)
Fixpoint top_loop (K : nat) (inlined : gmap string (list string))
    (stats : list CallStat) (n : nat) (t : top) : top :=
  match n with
  | O => t
  | S i =>
      if (printed t <? K)%nat then
        match stats !! i with
        | Some s =>
            if Direct s then top_loop K inlined stats i t
            else top_loop K inlined stats i (list_call inlined s t)
        | None => t (* not reached: i < len(stats) *)
        end
      else t
  end.

(** What [run] prints from the line [Top 100 hottest indirect calls] on,
    given the slice as [sort.Slice] left it. *)
Definition print_top (t : sums) (inlined : gmap string (list string))
    (sorted : list CallStat) : list printf :=
  let r := top_loop topCount inlined sorted (length sorted) top_start in
  ([Printf "\nTop %d hottest indirect calls:\n" [AInt (Z.of_nat topCount)]]
  ++ top_out r
  ++ [ Printf "Top %d weight: %d (%.2f%% of indirect weight)\n"
         [AInt (Z.of_nat topCount); AInt (topWeight r);
          AFloat (pct (topWeight r)
                    (Int64.add (indirectFunc (weight t)) (indirectMethod (weight t))))];
       Printf "Top %d hottest weight: %d (%.2f%% of indirect hottest weight)\n"
         [AInt (Z.of_nat topCount); AInt (topHottestWeight r);
          AFloat (pct (topHottestWeight r)
                    (Int64.add (indirectFunc (hottestWeight t))
                               (indirectMethod (hottestWeight t))))] ])%list.

(** [run], for a sort [sort_slice] standing for [sort.Slice]: standard
    output and the error returned. *)
Definition run (cwd : string) (syntax : string -> option json.value)
    (sort_slice : (CallStat -> CallStat -> bool) -> list CallStat -> list CallStat)
    (stdin : Stdin) : list printf * option error :=
  let '(stats, inlined, err) := readStats cwd syntax stdin in
  match err with
  | Some e => ([], Some e)
  | None =>
      let t := aggregate stats in
      ((print_sums t ++ print_top t inlined (sort_slice less stats))%list, None)
  end.

(* ================================================================= *)
(** ** Definitions the statements use *)

(** The calls the listing shows, for comparison with [top_loop]: the
    first [K] calls that are not direct, from the end of the slice. *)
Definition selected (K : nat) (sorted : list CallStat) : list CallStat :=
  take K (filter (fun s => Direct s = false) (reverse sorted)).

(** The calls that are not direct and are left out of the listing. *)
Definition left_out (K : nat) (sorted : list CallStat) : list CallStat :=
  drop K (filter (fun s => Direct s = false) (reverse sorted)).

(** The order of the three keys, as a relation: hottest weight, then
    package, then position, strings compared byte by byte. *)
Definition key_lt (a b : CallStat) : Prop :=
  HottestWeight a < HottestWeight b
  \/ (HottestWeight a = HottestWeight b
      /\ (String.ltb (Pkg a) (Pkg b) = true
          \/ (Pkg a = Pkg b /\ String.ltb (Pos a) (Pos b) = true))).

(** The symbols of the inlining lines of the input whose position, once
    normalized, is [key], in the order of the input. *)
Definition annotations_at (cwd : string) (ls : list string) (key : string)
    : list string :=
  flat_map
    (fun line =>
       match regexp.match_nonspace "" line with
       | Some (pos, sym) =>
           if decide (normalizePos cwd pos = key) then [sym] else []
       | None => []
       end) ls.

(** The loop body run over the calls [sel], in order. *)
Definition list_calls (inlined : gmap string (list string))
    (sel : list CallStat) (t : top) : top :=
  fold_left (fun t s => list_call inlined s t) sel t.

(** A direct call of weight 10 whose hottest callee has weight 3. *)
Definition direct_10_3 : CallStat :=
  mkCallStat "p" "/src/a.go:1:1" "p.f" true false 10 "p.g" 3 "" 0.

(** Two indirect calls at one absolute position, and the slice of the
    three sample calls before and after sorting. *)
Definition func_100_50 : CallStat :=
  mkCallStat "p" "/w/a.go:1:1" "p.f" false false 100 "p.g" 50 "" 0.
Definition iface_100_30 : CallStat :=
  mkCallStat "p" "/w/a.go:1:1" "p.f" false true 100 "T.h" 30 "T.h" 30.
Definition sample_stats : list CallStat :=
  [func_100_50; direct_10_3; iface_100_30].
Definition sample_sorted : list CallStat :=
  [direct_10_3; iface_100_30; func_100_50].

(** An inlining line with a relative position, followed by a record of
    an indirect call at that position: relative in [relative_input],
    absolute in [absolute_input]. The working directory is [/w]. *)
Definition relative_input : Stdin :=
  mkStdin
    [ "a.go:1:1: inlining call to foo";
      json.quoted "{'Pkg':'p','Pos':'a.go:1:1','Caller':'p.f','Weight':100,'Hottest':'p.g','HottestWeight':50}" ]
    None.
Definition absolute_input : Stdin :=
  mkStdin
    [ "a.go:1:1: inlining call to foo";
      json.quoted "{'Pkg':'p','Pos':'/w/a.go:1:1','Caller':'p.f','Weight':100,'Hottest':'p.g','HottestWeight':50}" ]
    None.
Definition relative_call : CallStat :=
  mkCallStat "p" "a.go:1:1" "p.f" false false 100 "p.g" 50 "" 0.

(** The invariant of the aggregation loop over the first [n] records. *)
Definition counted (n : Z) (t : sums) : Prop :=
  (0 <= indirectFunc (devirtualizedCount t) <= indirectFunc (count t)
   /\ indirectFunc (count t) <= n)
  /\ (0 <= indirectMethod (devirtualizedCount t) <= indirectMethod (count t)
      /\ indirectMethod (count t) <= n)
  /\ direct (devirtualizedCount t) = 0
  /\ direct (devirtualizedWeight t) = 0.

(** The sum of [f] over the records of [l] that satisfy [p]. *)
Fixpoint sum_where (p : CallStat -> bool) (f : CallStat -> Z)
    (l : list CallStat) : Z :=
  match l with
  | [] => 0
  | s :: l' => (if p s then f s else 0) + sum_where p f l'
  end.

Definition is_kind (k : kind) (s : CallStat) : bool :=
  match k, kind_of s with
  | KDirect, KDirect => true
  | KIndirectFunc, KIndirectFunc => true
  | KIndirectMethod, KIndirectMethod => true
  | _, _ => false
  end.

(** An indirect call of kind [k] that was devirtualized. *)
Definition is_devirtualized (k : kind) (s : CallStat) : bool :=
  is_kind k s && negb (Direct s) && nonempty (Devirtualized s).

(** What the hottest-weight sums take from a record. *)
Definition hottest_addend (s : CallStat) : Z :=
  if Direct s then Weight s else HottestWeight s.

(** The sums of two slices put together, field by field. *)
Definition merge_sum (x y : sum) : sum :=
  mkSum (Int64.add (direct x) (direct y))
        (Int64.add (indirectFunc x) (indirectFunc y))
        (Int64.add (indirectMethod x) (indirectMethod y)).

Definition merge_sums (t u : sums) : sums :=
  mkSums (merge_sum (count t) (count u))
         (merge_sum (weight t) (weight u))
         (merge_sum (hottestWeight t) (hottestWeight u))
         (merge_sum (devirtualizedCount t) (devirtualizedCount u))
         (merge_sum (devirtualizedWeight t) (devirtualizedWeight u)).


(** The [float64] operands of the calls of [fmt.Printf], in order. *)
Definition floats_of (out : list printf) : list spec_float :=
  flat_map
    (fun call =>
       flat_map (fun a => match a with AFloat f => [f] | _ => [] end)
                (args call))
    out.

(** The members of an object whose key selects a field. *)
Definition known_members (members : list (string * json.value))
    : list (string * json.value) :=
  List.filter
    (fun kv => match json.find_field kv.1 with Some _ => true | None => false end)
    members.

(** Paths by their elements. An element is plain when [Clean] keeps it:
    it is not empty, holds no separator, and is neither [.] nor [..]. *)
Definition is_dot_element (e : list ascii) : bool :=
  match e with
  | [c] => filepath.is_dot c
  | _ => false
  end.

Definition is_dotdot_element (e : list ascii) : bool :=
  match e with
  | [c; d] => filepath.is_dot c && filepath.is_dot d
  | _ => false
  end.

Definition plain_element (e : list ascii) : bool :=
  match e with
  | [] => false
  | _ :: _ =>
      forallb (fun c => negb (filepath.IsPathSeparator c)) e
      && negb (is_dot_element e) && negb (is_dotdot_element e)
  end.

(** Every element with a separator before it. *)
Definition segments (es : list (list ascii)) : list ascii :=
  flat_map (cons filepath.Separator) es.

(** The rooted path of the elements [es]; the root itself for none. *)
Definition rooted_chars (es : list (list ascii)) : list ascii :=
  match es with
  | [] => [filepath.Separator]
  | _ :: _ => segments es
  end.

Definition rooted_path (es : list (list ascii)) : string :=
  string_of_list_ascii (rooted_chars es).

(** The relative path of the elements [es]: no separator in front. *)
Definition relative_path (es : list (list ascii)) : string :=
  string_of_list_ascii (tl (segments es)).

(* ================================================================= *)
(** * Properties *)

(** ** int64 *)

Lemma wrap_in_range z : Int64.in_range (Int64.wrap z).
Proof.
  unfold Int64.in_range, Int64.wrap, Int64.min_int, Int64.max_int,
    Int64.modulus, Int64.half_modulus.
  pose proof (Z.mod_pos_bound (z + 2 ^ 63) (2 ^ 64) ltac:(lia)). lia.
Qed.

Lemma wrap_small z : Int64.in_range z -> Int64.wrap z = z.
Proof.
  unfold Int64.in_range, Int64.wrap, Int64.min_int, Int64.max_int,
    Int64.modulus, Int64.half_modulus.
  intros H. rewrite Z.mod_small; lia.
Qed.

Lemma wrap_eqm z : Int64.wrap z mod Int64.modulus = z mod Int64.modulus.
Proof.
  unfold Int64.wrap, Int64.modulus, Int64.half_modulus.
  rewrite Zminus_mod, Zmod_mod, <- Zminus_mod. f_equal. lia.
Qed.

Lemma wrap_congr a b :
  a mod Int64.modulus = b mod Int64.modulus -> Int64.wrap a = Int64.wrap b.
Proof.
  intros H. unfold Int64.wrap. f_equal.
  rewrite (Zplus_mod a), (Zplus_mod b), H. reflexivity.
Qed.

Lemma add_wrap_l a b : Int64.wrap (Int64.wrap a + b) = Int64.wrap (a + b).
Proof.
  apply wrap_congr. rewrite Zplus_mod, wrap_eqm, <- Zplus_mod. reflexivity.
Qed.

(** Two additions to an accumulator commute, overflow or not. *)
Lemma add_comm_acc a x y :
  Int64.add (Int64.add a x) y = Int64.add (Int64.add a y) x.
Proof. unfold Int64.add. rewrite !add_wrap_l. f_equal. lia. Qed.

Lemma add_small a b : Int64.in_range (a + b) -> Int64.add a b = a + b.
Proof. apply wrap_small. Qed.

(** ** The aggregation loop *)

Lemma aggregate_from_app t l1 l2 :
  aggregate_from t (l1 ++ l2) = aggregate_from (aggregate_from t l1) l2.
Proof. unfold aggregate_from. apply fold_left_app. Qed.

Lemma aggregate_from_cons t s l :
  aggregate_from t (s :: l) = aggregate_from (accumulate t s) l.
Proof. reflexivity. Qed.

(** What one record adds to the hottest-weight sum of its own kind. *)
Lemma accumulate_hottestWeight t s :
  proj_kind (kind_of s) (hottestWeight (accumulate t s)) =
  Int64.add (proj_kind (kind_of s) (hottestWeight t))
            (if Direct s then Weight s else HottestWeight s).
Proof.
  unfold accumulate, kind_of.
  destruct (Direct s), (Interface s), (nonempty (Devirtualized s)); reflexivity.
Qed.

Lemma accumulate_comm t a b :
  accumulate (accumulate t a) b = accumulate (accumulate t b) a.
Proof.
  unfold accumulate.
  destruct (Direct a), (Interface a), (nonempty (Devirtualized a)),
           (Direct b), (Interface b), (nonempty (Devirtualized b));
    unfold add_direct, add_indirectFunc, add_indirectMethod;
    cbn [count weight hottestWeight devirtualizedCount devirtualizedWeight
         direct indirectFunc indirectMethod];
    repeat match goal with
           | |- mkSums _ _ _ _ _ = mkSums _ _ _ _ _ => f_equal
           | |- mkSum _ _ _ = mkSum _ _ _ => f_equal
           end;
    first [reflexivity | apply add_comm_acc].
Qed.

Lemma aggregate_from_Permutation l l' :
  Permutation l l' -> forall t, aggregate_from t l = aggregate_from t l'.
Proof.
  induction 1 as [| x l l' _ IH | x y l | l l' l'' _ IH1 _ IH2]; intros t.
  - reflexivity.
  - rewrite !aggregate_from_cons. apply IH.
  - rewrite !aggregate_from_cons, accumulate_comm. reflexivity.
  - rewrite IH1. apply IH2.
Qed.

Lemma counted_zero : counted 0 zero_sums.
Proof. unfold counted. cbn. lia. Qed.

Lemma incr_small a n :
  0 <= a <= n -> n < Int64.max_int -> Int64.add a 1 = a + 1.
Proof.
  intros Ha Hn. apply add_small.
  unfold Int64.in_range, Int64.min_int, Int64.max_int, Int64.half_modulus in *.
  lia.
Qed.

Lemma counted_accumulate n t s :
  counted n t -> n < Int64.max_int -> counted (n + 1) (accumulate t s).
Proof.
  unfold counted. intros ((Hf & Hfn) & (Hm & Hmn) & Hdc & Hdw) Hn.
  assert (Hcf := incr_small (indirectFunc (count t)) n ltac:(lia) Hn).
  assert (Hcm := incr_small (indirectMethod (count t)) n ltac:(lia) Hn).
  assert (Hdf := incr_small (indirectFunc (devirtualizedCount t)) n ltac:(lia) Hn).
  assert (Hdm := incr_small (indirectMethod (devirtualizedCount t)) n ltac:(lia) Hn).
  unfold accumulate.
  destruct (Direct s), (Interface s), (nonempty (Devirtualized s));
    unfold add_direct, add_indirectFunc, add_indirectMethod;
    cbn [count weight hottestWeight devirtualizedCount devirtualizedWeight
         direct indirectFunc indirectMethod];
    rewrite ?Hcf, ?Hcm, ?Hdf, ?Hdm; lia.
Qed.

Lemma counted_aggregate_from l : forall n t,
  counted n t -> n + Z.of_nat (length l) <= Int64.max_int ->
  counted (n + Z.of_nat (length l)) (aggregate_from t l).
Proof.
  induction l as [| s l IH]; intros n t Ht Hlen.
  - cbn. rewrite Z.add_0_r. exact Ht.
  - rewrite aggregate_from_cons.
    cbn [length] in *. rewrite Nat2Z.inj_succ in *.
    replace (n + Z.succ (Z.of_nat (length l)))
      with ((n + 1) + Z.of_nat (length l)) by lia.
    apply IH; [apply counted_accumulate; [exact Ht | lia] | lia].
Qed.

(** C1. The claim: every record adds its [HottestWeight] to the
    hottest-weight sum of its kind, a direct record too. The code: the
    direct branch adds [Weight] (line 144, [hottestWeight.direct +=
    s.Weight]), while both indirect branches add [HottestWeight]. On the
    single record [direct_10_3] the direct hottest-weight sum is 10, the
    record's [Weight], and not 3, its [HottestWeight]. *)
Theorem C1_direct_hottest_sum_adds_Weight :
  direct (hottestWeight (aggregate [direct_10_3])) = 10
  /\ HottestWeight direct_10_3 = 3
  /\ Weight direct_10_3 = 10
  /\ (forall t s, Direct s = true ->
        direct (hottestWeight (accumulate t s))
        = Int64.add (direct (hottestWeight t)) (Weight s))
  /\ (forall t s, Direct s = false ->
        proj_kind (kind_of s) (hottestWeight (accumulate t s))
        = Int64.add (proj_kind (kind_of s) (hottestWeight t)) (HottestWeight s)).
Proof.
  split; [reflexivity |]. split; [reflexivity |]. split; [reflexivity |].
  split; intros t s Hs.
  - pose proof (accumulate_hottestWeight t s) as H.
    unfold kind_of in H. rewrite Hs in H. exact H.
  - pose proof (accumulate_hottestWeight t s) as H.
    rewrite Hs in H. exact H.
Qed.

(** C5. After the aggregation of a record list (a Go slice, so of fewer
    than 2^63 records), the devirtualized count of each indirect kind is
    at most the count of that kind, and the direct kind's devirtualized
    count and devirtualized weight are zero. *)
Theorem C5_devirtualized_counts_bounded (stats : list CallStat) :
  Z.of_nat (length stats) <= Int64.max_int ->
  indirectFunc (devirtualizedCount (aggregate stats))
    <= indirectFunc (count (aggregate stats))
  /\ indirectMethod (devirtualizedCount (aggregate stats))
    <= indirectMethod (count (aggregate stats))
  /\ direct (devirtualizedCount (aggregate stats)) = 0
  /\ direct (devirtualizedWeight (aggregate stats)) = 0.
Proof.
  intros Hlen.
  destruct (counted_aggregate_from stats 0 zero_sums counted_zero)
    as ((Hf & _) & (Hm & _) & Hdc & Hdw); [lia |].
  fold (aggregate stats) in *. repeat split; [lia | lia | exact Hdc | exact Hdw].
Qed.

Lemma C5_witness :
  indirectFunc (devirtualizedCount (aggregate [direct_10_3; zero_CallStat]))
    <= indirectFunc (count (aggregate [direct_10_3; zero_CallStat]))
  /\ indirectMethod (devirtualizedCount (aggregate [direct_10_3; zero_CallStat]))
    <= indirectMethod (count (aggregate [direct_10_3; zero_CallStat]))
  /\ direct (devirtualizedCount (aggregate [direct_10_3; zero_CallStat])) = 0
  /\ direct (devirtualizedWeight (aggregate [direct_10_3; zero_CallStat])) = 0.
Proof.
  apply (C5_devirtualized_counts_bounded [direct_10_3; zero_CallStat]).
  vm_compute. discriminate.
Defined.

(** C7. The aggregation does not depend on the order of the records:
    a permutation of the list yields the same five sums. *)
Theorem C7_aggregate_order_independent (stats stats' : list CallStat) :
  Permutation stats stats' -> aggregate stats = aggregate stats'.
Proof. intros H. apply aggregate_from_Permutation, H. Qed.

Lemma C7_witness :
  aggregate [direct_10_3; zero_CallStat] = aggregate [zero_CallStat; direct_10_3].
Proof.
  apply (C7_aggregate_order_independent
           [direct_10_3; zero_CallStat] [zero_CallStat; direct_10_3]).
  apply perm_swap.
Defined.

(** ** [filepath.Clean] keeps a rooted path rooted *)

Lemma backtrack_last c buf :
  last buf = Some filepath.Separator ->
  last (filepath.backtrack 1 c buf) = Some filepath.Separator.
Proof.
  revert c. induction buf as [| c' buf IH]; intros c Hlast; [discriminate |].
  cbn [filepath.backtrack].
  destruct ((1 <? length (c' :: buf))%nat && negb (filepath.IsPathSeparator c))
    eqn:Hgo; [| exact Hlast].
  apply andb_true_iff in Hgo as [Hlen _]. apply Nat.ltb_lt in Hlen.
  destruct buf as [| c'' buf]; [cbn in Hlen; lia |].
  apply IH. exact Hlast.
Qed.

Lemma copy_element_last rest : forall buf,
  last buf = Some filepath.Separator ->
  last (filepath.copy_element rest buf).2 = Some filepath.Separator.
Proof.
  induction rest as [| c rest IH]; intros buf Hlast; cbn; [exact Hlast |].
  destruct (filepath.IsPathSeparator c); cbn; [exact Hlast |].
  apply IH. destruct buf; [discriminate | exact Hlast].
Qed.

Lemma last_cons_keep {A} (x : A) (l : list A) (y : A) :
  last l = Some y -> last (x :: l) = Some y.
Proof. destruct l; [discriminate | auto]. Qed.

Lemma clean_loop_last fuel : forall rest buf,
  last buf = Some filepath.Separator ->
  last (filepath.clean_loop fuel true rest buf 1) = Some filepath.Separator.
Proof.
  induction fuel as [| fuel IH]; intros rest buf Hlast; [exact Hlast |].
  destruct rest as [| c rest1]; [exact Hlast |].
  cbn [filepath.clean_loop].
  destruct (filepath.IsPathSeparator c); [apply IH, Hlast |].
  destruct (filepath.is_dot c && filepath.end_or_sep rest1); [apply IH, Hlast |].
  destruct (filepath.is_dot c && filepath.is_dot (hd "/"%char rest1)
            && filepath.end_or_sep (tl rest1)).
  - destruct (1 <? length buf)%nat eqn:Hlen.
    + destruct buf as [| c' buf']; [apply IH, Hlast |].
      apply IH, backtrack_last.
      apply Nat.ltb_lt in Hlen. destruct buf'; [cbn in Hlen; lia | exact Hlast].
    + cbn [negb]. apply IH, Hlast.
  - cbn [negb andb orb].
    rewrite orb_false_r.
    set (buf1 := if negb (length buf =? 1)%nat then _ else _).
    assert (Hbuf1 : last buf1 = Some filepath.Separator).
    { subst buf1. destruct (negb (length buf =? 1)%nat);
        [apply last_cons_keep |]; exact Hlast. }
    pose proof (copy_element_last (c :: rest1) buf1 Hbuf1) as Hcopy.
    destruct (filepath.copy_element (c :: rest1) buf1) as [rest' buf2].
    apply IH, Hcopy.
Qed.

Lemma Clean_rooted path : rooted path -> rooted (filepath.Clean path).
Proof.
  intros [rest ->]. unfold filepath.Clean. cbn [list_ascii_of_string].
  change (filepath.IsPathSeparator "/"%char) with true. cbv iota.
  pose proof (clean_loop_last (length (list_ascii_of_string rest))
                (list_ascii_of_string rest) [filepath.Separator] eq_refl) as Hlast.
  destruct (filepath.clean_loop _ true _ _ 1) as [| c buf] eqn:Hbuf;
    [discriminate |].
  apply last_Some in Hlast as [front Hfront]. rewrite Hfront.
  rewrite rev_app_distr. cbn. eexists. reflexivity.
Qed.

Lemma Join_rooted cwd pos : rooted cwd -> rooted (filepath.Join [cwd; pos]).
Proof.
  intros [rest ->]. cbn [filepath.Join nonempty filepath.join_sep].
  apply Clean_rooted. cbn. eexists. reflexivity.
Qed.

Lemma normalizePos_of_rooted cwd pos : rooted pos -> normalizePos cwd pos = pos.
Proof. intros [rest ->]. reflexivity. Qed.

Lemma normalizePos_rooted cwd pos : rooted cwd -> rooted (normalizePos cwd pos).
Proof.
  intros Hcwd. unfold normalizePos.
  destruct pos as [| c rest]; [apply Join_rooted, Hcwd |].
  destruct (Ascii.eqb_spec c "/"%char) as [-> |];
    [eexists; reflexivity | apply Join_rooted, Hcwd].
Qed.

(** ** [filepath.Clean]: the loop reads its whole input *)

Lemma copy_element_rest rest : forall buf,
  (length (filepath.copy_element rest buf).1 <= length rest)%nat.
Proof.
  induction rest as [| c rest IH]; intros buf; cbn; [lia |].
  destruct (filepath.IsPathSeparator c); cbn; [lia |].
  specialize (IH (c :: buf)). lia.
Qed.

(** Any fuel that reaches the length of the unread input gives the same
    result: the loop of [Clean] never stops for want of fuel. *)
Lemma clean_loop_fuel is_rooted : forall fuel fuel' rest buf dotdot,
  (length rest <= fuel)%nat -> (length rest <= fuel')%nat ->
  filepath.clean_loop fuel is_rooted rest buf dotdot
  = filepath.clean_loop fuel' is_rooted rest buf dotdot.
Proof.
  induction fuel as [| fuel IH]; intros fuel' rest buf dotdot Hf Hf'.
  - destruct rest; [destruct fuel'; reflexivity | cbn in Hf; lia].
  - destruct rest as [| c rest1]; [destruct fuel'; reflexivity |].
    destruct fuel' as [| fuel']; [cbn in Hf'; lia |].
    cbn [length] in Hf, Hf'.
    assert (Htl : (length (tl rest1) <= length rest1)%nat)
      by (destruct rest1; cbn; lia).
    cbn [filepath.clean_loop].
    destruct (filepath.IsPathSeparator c) eqn:Hsep; [apply IH; lia |].
    destruct (filepath.is_dot c && filepath.end_or_sep rest1); [apply IH; lia |].
    destruct (filepath.is_dot c && filepath.is_dot (hd "/"%char rest1)
              && filepath.end_or_sep (tl rest1)).
    + destruct (dotdot <? length buf)%nat.
      * destruct buf; apply IH; lia.
      * destruct (negb is_rooted); apply IH; lia.
    + match goal with
      | |- context [filepath.copy_element _ ?b] => set (buf1 := b)
      end.
      pose proof (copy_element_rest rest1 (c :: buf1)) as Hlen.
      cbn [filepath.copy_element]. rewrite Hsep.
      destruct (filepath.copy_element rest1 (c :: buf1)) as [rest' buf2].
      cbn [fst] in Hlen. apply IH; lia.
Qed.

(** C6. Position normalization is idempotent. The working directory is
    the one [os.Getwd] returned, a rooted path. *)
Theorem C6_normalizePos_idempotent (cwd p : string) :
  rooted cwd ->
  normalizePos cwd (normalizePos cwd p) = normalizePos cwd p.
Proof. intros Hcwd. apply normalizePos_of_rooted, normalizePos_rooted, Hcwd. Qed.

Lemma C6_witness :
  normalizePos "/home/u/proj" (normalizePos "/home/u/proj" "./pkg/../a.go:3:7")
  = normalizePos "/home/u/proj" "./pkg/../a.go:3:7".
Proof.
  apply (C6_normalizePos_idempotent "/home/u/proj" "./pkg/../a.go:3:7").
  exists "home/u/proj". reflexivity.
Defined.

(** ** [pct] *)

Lemma div_by_zero_non_finite (x : spec_float) :
  Float64.non_finite (Float64.div x (Float64.of_int64 0)) = true.
Proof. destruct x; reflexivity. Qed.

Lemma pct_zero_denominator (n : Z) : Float64.non_finite (pct n 0) = true.
Proof. unfold pct. apply div_by_zero_non_finite. Qed.

(** C8. A percentage over the denominator zero is computed without
    error: [pct] is total and its value there is an infinity or a NaN
    (the NaN for the numerator zero), and [run] hands that value to
    [fmt.Printf] as it is, here for the indirect-func line of the
    hottest-weight breakdown. *)
Theorem C8_pct_zero_denominator :
  (forall n, Float64.non_finite (pct n 0) = true)
  /\ pct 0 0 = S754_nan
  /\ pct 1 0 = S754_infinity false
  /\ (forall t, indirectFunc (weight t) = 0 ->
        exists f,
          In (Printf "\tIndirect func: %d (%.2f%% of indirect func)\n"
                [AInt (indirectFunc (hottestWeight t)); AFloat f])
             (print_sums t)
          /\ f = pct (indirectFunc (hottestWeight t)) 0
          /\ Float64.non_finite f = true).
Proof.
  split; [exact pct_zero_denominator |].
  split; [reflexivity |]. split; [reflexivity |].
  intros t Ht. exists (pct (indirectFunc (hottestWeight t)) 0).
  split; [| split; [reflexivity | apply pct_zero_denominator]].
  unfold print_sums. rewrite Ht. cbn [In]. do 13 right. left. reflexivity.
Qed.

Lemma C8_witness :
  exists f,
    In (Printf "\tIndirect func: %d (%.2f%% of indirect func)\n"
          [AInt (indirectFunc (hottestWeight (aggregate [zero_CallStat])));
           AFloat f])
       (print_sums (aggregate [zero_CallStat]))
    /\ f = pct (indirectFunc (hottestWeight (aggregate [zero_CallStat]))) 0
    /\ Float64.non_finite f = true.
Proof.
  destruct C8_pct_zero_denominator as (_ & _ & _ & H).
  apply (H (aggregate [zero_CallStat])). reflexivity.
Defined.

(** ** [readStats] and [run] *)

Lemma readStats_ok cwd syntax ls :
  readStats cwd syntax (mkStdin ls None)
  = ((fold_left (scan_line cwd syntax) ls ([], ∅)).1,
     (fold_left (scan_line cwd syntax) ls ([], ∅)).2, None).
Proof.
  unfold readStats. cbn [lines read_err].
  destruct (fold_left _ ls _) as [stats inlined]. reflexivity.
Qed.

Lemma readStats_err cwd syntax ls e :
  readStats cwd syntax (mkStdin ls (Some e)) = ([], ∅, Some e).
Proof.
  unfold readStats. cbn [lines read_err].
  destruct (fold_left _ ls _) as [stats inlined]. reflexivity.
Qed.

(** C9. When the scanner reports a read error, [readStats] returns the
    error with a nil slice and a nil map, whatever was read before, and
    [run] returns the error without a single [Printf]. *)
Theorem C9_read_error_aborts cwd syntax sort_slice (ls : list string) (e : error) :
  readStats cwd syntax (mkStdin ls (Some e)) = ([], ∅, Some e)
  /\ run cwd syntax sort_slice (mkStdin ls (Some e)) = ([], Some e).
Proof.
  split; [apply readStats_err |].
  unfold run. rewrite readStats_err. reflexivity.
Qed.

(** ** Records without a known field *)

Lemma decode_members_unknown members : forall s,
  Forall (fun kv => json.find_field kv.1 = None) members ->
  json.decode_members members s = Some s.
Proof.
  induction members as [| [key v] members IH]; intros s Hall; [reflexivity |].
  apply Forall_cons in Hall as [Hkey Hall]. cbn in Hkey.
  cbn [json.decode_members]. rewrite Hkey. apply IH, Hall.
Qed.

Lemma accumulate_zero_CallStat t :
  accumulate t zero_CallStat
  = mkSums (add_indirectFunc (count t) 1)
           (add_indirectFunc (weight t) 0)
           (add_indirectFunc (hottestWeight t) 0)
           (devirtualizedCount t)
           (devirtualizedWeight t).
Proof. reflexivity. Qed.

(** C10. A line that is a JSON object none of whose keys selects a field
    of [CallStat] is not dropped: it decodes without error to the zero
    record, [readStats] appends that record (whether or not the line
    also matches the inlining pattern), and the aggregation counts it as
    an indirect function call of weight 0. *)
Theorem C10_object_without_known_fields cwd syntax (line : string)
    (members : list (string * json.value)) :
  syntax line = Some (json.Object members) ->
  Forall (fun kv => json.find_field kv.1 = None) members ->
  Unmarshal syntax line zero_CallStat = Some zero_CallStat
  /\ (forall stats inlined,
        (scan_line cwd syntax (stats, inlined) line).1
        = (stats ++ [zero_CallStat])%list)
  /\ (readStats cwd syntax (mkStdin [line] None)).1.1 = [zero_CallStat]
  /\ kind_of zero_CallStat = KIndirectFunc
  /\ (forall t,
        accumulate t zero_CallStat
        = mkSums (add_indirectFunc (count t) 1)
                 (add_indirectFunc (weight t) 0)
                 (add_indirectFunc (hottestWeight t) 0)
                 (devirtualizedCount t)
                 (devirtualizedWeight t))
  /\ count (aggregate (readStats cwd syntax (mkStdin [line] None)).1.1)
     = mkSum 0 1 0
  /\ weight (aggregate (readStats cwd syntax (mkStdin [line] None)).1.1)
     = mkSum 0 0 0.
Proof.
  intros Hsyntax Hunknown.
  assert (Hdec : Unmarshal syntax line zero_CallStat = Some zero_CallStat).
  { unfold Unmarshal. rewrite Hsyntax. cbn.
    apply decode_members_unknown, Hunknown. }
  assert (Hscan : forall stats inlined,
             (scan_line cwd syntax (stats, inlined) line).1
             = (stats ++ [zero_CallStat])%list).
  { intros stats inlined. unfold scan_line. rewrite Hdec. reflexivity. }
  assert (Hread : (readStats cwd syntax (mkStdin [line] None)).1.1 = [zero_CallStat]).
  { rewrite readStats_ok. cbn [fst fold_left]. apply (Hscan [] ∅). }
  split; [exact Hdec |]. split; [exact Hscan |]. split; [exact Hread |].
  split; [reflexivity |]. split; [exact accumulate_zero_CallStat |].
  rewrite Hread. split; reflexivity.
Qed.

Lemma C10_witness :
  Unmarshal json.parse (json.quoted "{'note':'cold','n':[1,2]}") zero_CallStat
  = Some zero_CallStat
  /\ count (aggregate (readStats "/w" json.parse
             (mkStdin [json.quoted "{'note':'cold','n':[1,2]}"] None)).1.1)
     = mkSum 0 1 0.
Proof.
  destruct (C10_object_without_known_fields "/w" json.parse
              (json.quoted "{'note':'cold','n':[1,2]}")
              [("note", json.Str "cold");
               ("n", json.Array [json.Number "1"; json.Number "2"])])
    as (H1 & _ & _ & _ & _ & H2 & _).
  - vm_compute. reflexivity.
  - repeat constructor.
  - split; [exact H1 | exact H2].
Defined.

(** ** The order of strings and the order of the three keys *)

Lemma ascii_compare_refl a : Ascii.compare a a = Eq.
Proof. unfold Ascii.compare. apply N.compare_refl. Qed.

Lemma ascii_compare_Lt_trans a b c :
  Ascii.compare a b = Lt -> Ascii.compare b c = Lt -> Ascii.compare a c = Lt.
Proof.
  unfold Ascii.compare. rewrite !N.compare_lt_iff. apply N.lt_trans.
Qed.

Lemma string_compare_refl s : String.compare s s = Eq.
Proof.
  induction s as [| a s IH]; cbn; [reflexivity |].
  rewrite ascii_compare_refl. exact IH.
Qed.

Lemma string_compare_Lt_trans s1 : forall s2 s3,
  String.compare s1 s2 = Lt -> String.compare s2 s3 = Lt ->
  String.compare s1 s3 = Lt.
Proof.
  induction s1 as [| a1 s1 IH]; intros [| a2 s2] [| a3 s3]; cbn;
    try discriminate; try reflexivity.
  destruct (Ascii.compare a1 a2) eqn:H12; try discriminate;
    destruct (Ascii.compare a2 a3) eqn:H23; try discriminate; intros Hs12 Hs23.
  - apply Ascii.compare_eq_iff in H12, H23. subst.
    rewrite ascii_compare_refl. eapply IH; eassumption.
  - apply Ascii.compare_eq_iff in H12. subst. rewrite H23. reflexivity.
  - apply Ascii.compare_eq_iff in H23. subst. rewrite H12. reflexivity.
  - rewrite (ascii_compare_Lt_trans _ _ _ H12 H23). reflexivity.
Qed.

Lemma ltb_compare s1 s2 : String.ltb s1 s2 = true <-> String.compare s1 s2 = Lt.
Proof. unfold String.ltb. destruct (String.compare s1 s2); intuition congruence. Qed.

Lemma ltb_irrefl s : String.ltb s s = false.
Proof. unfold String.ltb. rewrite string_compare_refl. reflexivity. Qed.

Lemma ltb_trans s1 s2 s3 :
  String.ltb s1 s2 = true -> String.ltb s2 s3 = true -> String.ltb s1 s3 = true.
Proof. rewrite !ltb_compare. apply string_compare_Lt_trans. Qed.

(** [less] is the order of the three keys. *)
Lemma less_key_lt a b : less a b = true <-> key_lt a b.
Proof.
  unfold less, key_lt.
  destruct (Z.eqb_spec (HottestWeight a) (HottestWeight b)) as [Hw | Hw];
    cbn [negb].
  - destruct (String.eqb_spec (Pkg a) (Pkg b)) as [Hp | Hp]; cbn [negb].
    + split; [intros H; right; auto |].
      intros [H | [_ [H | [_ H]]]]; [lia | | exact H].
      rewrite Hp, ltb_irrefl in H. discriminate.
    + split; [intros H; right; auto |].
      intros [H | [_ [H | [H _]]]]; [lia | exact H | contradiction].
  - rewrite Z.ltb_lt. split; [auto |]. intros [H | [H _]]; [exact H | contradiction].
Qed.

Lemma key_lt_irrefl a : ~ key_lt a a.
Proof.
  intros [H | [_ [H | [_ H]]]]; [lia | |]; rewrite ltb_irrefl in H; discriminate.
Qed.

Lemma key_lt_trans a b c : key_lt a b -> key_lt b c -> key_lt a c.
Proof.
  unfold key_lt.
  intros [Hab | [Hab Hab']] [Hbc | [Hbc Hbc']]; [left; lia | left; lia | left; lia |].
  right. split; [lia |].
  destruct Hab' as [Hab' | [Hpab Hab']], Hbc' as [Hbc' | [Hpbc Hbc']].
  - left. eapply ltb_trans; eassumption.
  - left. rewrite <- Hpbc. exact Hab'.
  - left. rewrite Hpab. exact Hbc'.
  - right. split; [congruence |]. eapply ltb_trans; eassumption.
Qed.

Lemma less_irrefl a : less a a = false.
Proof.
  destruct (less a a) eqn:H; [| reflexivity].
  apply less_key_lt, key_lt_irrefl in H. contradiction.
Qed.

Lemma less_trans a b c : less a b = true -> less b c = true -> less a c = true.
Proof. rewrite !less_key_lt. apply key_lt_trans. Qed.

Lemma less_asym a b : less a b = true -> less b a = false.
Proof.
  intros Hab. destruct (less b a) eqn:Hba; [| reflexivity].
  pose proof (less_trans _ _ _ Hab Hba) as H. rewrite less_irrefl in H.
  discriminate.
Qed.

(** ** Sorted slices *)

Section Sorting.
Context {A : Type} (lt : A -> A -> bool).
Hypothesis lt_asym : forall a b, lt a b = true -> lt b a = false.
Hypothesis lt_trans : forall a b c, lt a b = true -> lt b c = true -> lt a c = true.

Lemma insert_sorted_Permutation x l :
  Permutation (x :: l) (insert_sorted lt x l).
Proof.
  induction l as [| y l IH]; cbn; [reflexivity |].
  destruct (lt x y); [reflexivity |].
  rewrite perm_swap. apply perm_skip, IH.
Qed.

Lemma insert_sorted_StronglySorted x l :
  StronglySorted (fun a b => lt b a = false) l ->
  StronglySorted (fun a b => lt b a = false) (insert_sorted lt x l).
Proof.
  induction 1 as [| y l Hsorted IH Hy]; cbn; [repeat constructor |].
  destruct (lt x y) eqn:Hxy.
  - constructor; [constructor; assumption |].
    constructor; [apply lt_asym, Hxy |].
    eapply Forall_impl; [exact Hy |]. cbn. intros z Hzy.
    destruct (lt z x) eqn:Hzx; [| reflexivity].
    rewrite (lt_trans _ _ _ Hzx Hxy) in Hzy. discriminate.
  - constructor; [exact IH |].
    eapply Permutation_Forall; [apply insert_sorted_Permutation |].
    constructor; assumption.
Qed.

Lemma insertion_sort_SortSlice l : SortSlice lt l (insertion_sort lt l).
Proof.
  unfold SortSlice. induction l as [| x l [IHp IHs]]; cbn.
  - split; constructor.
  - split; [| apply insert_sorted_StronglySorted, IHs].
    rewrite <- insert_sorted_Permutation. apply perm_skip, IHp.
Qed.

End Sorting.

Lemma StronglySorted_lookup {A} (R : A -> A -> Prop) (l : list A) :
  StronglySorted R l ->
  forall i j a b, l !! i = Some a -> l !! j = Some b -> (i < j)%nat -> R a b.
Proof.
  induction 1 as [| x l _ IH Hx]; intros i j a b Hi Hj Hij; [discriminate |].
  destruct j as [| j]; [lia |]. cbn in Hj.
  destruct i as [| i]; cbn in Hi.
  - injection Hi as <-. rewrite Forall_forall in Hx.
    apply Hx. eapply list_elem_of_lookup_2, Hj.
  - eapply IH; [exact Hi | exact Hj | lia].
Qed.

Lemma StronglySorted_reverse {A} (R : A -> A -> Prop) (l : list A) :
  StronglySorted R l -> StronglySorted (fun a b => R b a) (reverse l).
Proof.
  induction 1 as [| x l _ IH Hx]; [constructor |].
  rewrite reverse_cons. apply StronglySorted_app.
  split; [| split; [exact IH | repeat constructor]].
  intros x1 x2 Hx1 Hx2. apply list_elem_of_singleton in Hx2 as ->.
  rewrite Forall_forall in Hx. apply Hx. apply elem_of_reverse, Hx1.
Qed.

Lemma StronglySorted_sublist {A} (R : A -> A -> Prop) (l1 l2 : list A) :
  l1 `sublist_of` l2 -> StronglySorted R l2 -> StronglySorted R l1.
Proof.
  induction 1 as [| x l1 l2 Hsub IH | x l1 l2 Hsub IH]; intros Hsorted.
  - constructor.
  - apply StronglySorted_inv in Hsorted as [Hs Hx].
    constructor; [apply IH, Hs |].
    rewrite Forall_forall in *. intros y Hy. apply Hx.
    eapply elem_of_sublist; eassumption.
  - apply StronglySorted_inv in Hsorted as [Hs _]. apply IH, Hs.
Qed.

(** In a slice that [sort.Slice] sorted by [less], a call with the
    smaller keys stands before a call with the greater keys. *)
Lemma sorted_key_lt_index (sorted : list CallStat) i j a b :
  StronglySorted (fun a b => less b a = false) sorted ->
  sorted !! i = Some a -> sorted !! j = Some b -> key_lt a b -> (i < j)%nat.
Proof.
  intros Hsorted Hi Hj Hab. apply less_key_lt in Hab.
  destruct (Nat.lt_trichotomy i j) as [Hlt | [-> | Hgt]]; [exact Hlt | |].
  - rewrite Hi in Hj. injection Hj as ->. rewrite less_irrefl in Hab. discriminate.
  - pose proof (StronglySorted_lookup _ _ Hsorted j i b a Hj Hi Hgt) as H.
    cbn in H. congruence.
Qed.

Lemma selected_sublist K sorted : selected K sorted `sublist_of` reverse sorted.
Proof.
  unfold selected. etransitivity; [apply sublist_take | apply sublist_filter].
Qed.

Lemma selected_StronglySorted K sorted :
  StronglySorted (fun a b => less b a = false) sorted ->
  StronglySorted (fun a b => less a b = false) (selected K sorted).
Proof.
  intros Hsorted. eapply StronglySorted_sublist; [apply selected_sublist |].
  apply (StronglySorted_reverse _ _ Hsorted).
Qed.

(** In the listing the call with the greater keys comes first. *)
Lemma selected_key_lt_index K (sorted : list CallStat) i j a b :
  StronglySorted (fun a b => less b a = false) sorted ->
  selected K sorted !! i = Some a -> selected K sorted !! j = Some b ->
  key_lt a b -> (j < i)%nat.
Proof.
  intros Hsorted Hi Hj Hab. apply less_key_lt in Hab.
  apply (selected_StronglySorted K) in Hsorted.
  destruct (Nat.lt_trichotomy j i) as [Hlt | [-> | Hgt]]; [exact Hlt | |].
  - rewrite Hi in Hj. injection Hj as ->. rewrite less_irrefl in Hab. discriminate.
  - pose proof (StronglySorted_lookup _ _ Hsorted i j a b Hi Hj Hgt) as H.
    cbn in H. congruence.
Qed.

(** ** The listing loop *)

Lemma list_calls_out inlined sel : forall t,
  top_out (list_calls inlined sel t)
  = (top_out t ++ flat_map (print_call inlined) sel)%list.
Proof.
  induction sel as [| s sel IH]; intros t; cbn.
  - rewrite app_nil_r. reflexivity.
  - unfold list_calls in IH. rewrite IH. cbn [top_out list_call].
    rewrite <- app_assoc. reflexivity.
Qed.

Lemma list_calls_printed inlined sel : forall t,
  printed (list_calls inlined sel t) = (printed t + length sel)%nat.
Proof.
  induction sel as [| s sel IH]; intros t; cbn; [lia |].
  unfold list_calls in IH. rewrite IH. cbn [printed list_call]. lia.
Qed.

(** The loop from index [n - 1] down lists the first [K - printed]
    calls that are not direct among [stats[n-1]], ..., [stats[0]]. *)
Lemma top_loop_take K inlined stats : forall n t,
  (n <= length stats)%nat ->
  top_loop K inlined stats n t
  = list_calls inlined
      (take (K - printed t)
            (filter (fun s => Direct s = false) (reverse (take n stats)))) t.
Proof.
  induction n as [| i IH]; intros t Hn.
  - rewrite take_0. change (filter _ (reverse [])) with (@nil CallStat).
    rewrite take_nil. reflexivity.
  - cbn [top_loop].
    destruct (printed t <? K)%nat eqn:Hlt.
    + apply Nat.ltb_lt in Hlt.
      destruct (lookup_lt_is_Some_2 stats i ltac:(lia)) as [s Hs].
      rewrite Hs, (take_S_r _ _ _ Hs), reverse_snoc.
      destruct (Direct s) eqn:Hd.
      * rewrite filter_cons_False by congruence. apply IH. lia.
      * rewrite filter_cons_True by exact Hd.
        destruct (K - printed t)%nat as [| m] eqn:Hm; [lia |].
        cbn [take]. unfold list_calls at 1. cbn [fold_left].
        rewrite IH by lia. cbn [printed list_call].
        replace (K - S (printed t))%nat with m by lia. reflexivity.
    + apply Nat.ltb_ge in Hlt.
      replace (K - printed t)%nat with 0%nat by lia. reflexivity.
Qed.

Lemma top_loop_selected K inlined sorted :
  top_loop K inlined sorted (length sorted) top_start
  = list_calls inlined (selected K sorted) top_start.
Proof.
  rewrite top_loop_take by lia. cbn [printed top_start].
  rewrite Nat.sub_0_r, (take_ge sorted) by lia. reflexivity.
Qed.

Lemma top_loop_out K inlined sorted :
  top_out (top_loop K inlined sorted (length sorted) top_start)
  = flat_map (print_call inlined) (selected K sorted).
Proof. rewrite top_loop_selected, list_calls_out. reflexivity. Qed.

Lemma selected_not_direct K sorted :
  Forall (fun s => Direct s = false) (selected K sorted).
Proof.
  unfold selected. apply Forall_take, Forall_forall. intros s Hs.
  apply list_elem_of_filter in Hs as [Hs _]. exact Hs.
Qed.

Lemma selected_left_out K sorted :
  (selected K sorted ++ left_out K sorted)%list
  = filter (fun s => Direct s = false) (reverse sorted).
Proof. apply take_drop. Qed.

Lemma not_direct_Permutation stats sorted :
  Permutation stats sorted ->
  Permutation (filter (fun s => Direct s = false) stats)
              (filter (fun s => Direct s = false) (reverse sorted)).
Proof. intros H. rewrite reverse_Permutation, H. reflexivity. Qed.

(** C3. The listing is fixed by the slice as [sort.Slice] leaves it for
    [less], read from its end; [less] is the ascending order of hottest
    weight, then package, then position; a call with smaller keys stands
    earlier in the slice and later in the listing. So for equal hottest
    weights the smaller package stands earlier, and for equal packages
    too the smaller position does. *)
Theorem C3_ranking_by_three_keys (stats sorted : list CallStat)
    (inlined : gmap string (list string)) :
  SortSlice less stats sorted ->
  (forall a b, less a b = true <-> key_lt a b)
  /\ top_out (top_loop topCount inlined sorted (length sorted) top_start)
     = flat_map (print_call inlined)
         (take topCount (filter (fun s => Direct s = false) (reverse sorted)))
  /\ (forall i j a b,
        sorted !! i = Some a -> sorted !! j = Some b -> key_lt a b ->
        (i < j)%nat)
  /\ (forall i j a b,
        selected topCount sorted !! i = Some a ->
        selected topCount sorted !! j = Some b -> key_lt a b ->
        (j < i)%nat)
  /\ (forall a b,
        HottestWeight a = HottestWeight b ->
        String.ltb (Pkg a) (Pkg b) = true -> key_lt a b)
  /\ (forall a b,
        HottestWeight a = HottestWeight b -> Pkg a = Pkg b ->
        String.ltb (Pos a) (Pos b) = true -> key_lt a b).
Proof.
  intros [_ Hsorted].
  split; [exact less_key_lt |].
  split; [apply top_loop_out |].
  split; [intros i j a b; apply sorted_key_lt_index, Hsorted |].
  split; [intros i j a b; apply selected_key_lt_index, Hsorted |].
  unfold key_lt. split; intros a b; intros; right; auto.
Qed.

(** C4. No direct call is listed, and a direct call takes no place in
    the listing: the loop lists exactly the first [topCount] calls that
    are not direct, from the end of the sorted slice, all of them when
    they are fewer, and no call left out ranks above a listed one. *)
Theorem C4_direct_calls_skipped (stats sorted : list CallStat)
    (inlined : gmap string (list string)) :
  SortSlice less stats sorted ->
  top_out (top_loop topCount inlined sorted (length sorted) top_start)
  = flat_map (print_call inlined) (selected topCount sorted)
  /\ printed (top_loop topCount inlined sorted (length sorted) top_start)
     = length (selected topCount sorted)
  /\ Forall (fun s => Direct s = false) (selected topCount sorted)
  /\ length (selected topCount sorted)
     = Nat.min topCount (length (filter (fun s => Direct s = false) stats))
  /\ Permutation (selected topCount sorted ++ left_out topCount sorted)
                 (filter (fun s => Direct s = false) stats)
  /\ (forall s x,
        s ∈ selected topCount sorted -> x ∈ left_out topCount sorted ->
        less s x = false).
Proof.
  intros [Hperm Hsorted].
  pose proof (not_direct_Permutation _ _ Hperm) as Hnd.
  split; [apply top_loop_out |].
  split; [rewrite top_loop_selected, list_calls_printed; reflexivity |].
  split; [apply selected_not_direct |].
  split; [| split].
  - unfold selected. rewrite length_take.
    rewrite (Permutation_length Hnd). reflexivity.
  - rewrite selected_left_out. symmetry. exact Hnd.
  - intros s x Hs Hx.
    assert (Hall : StronglySorted (fun a b => less a b = false)
                     (selected topCount sorted ++ left_out topCount sorted)).
    { rewrite selected_left_out.
      eapply StronglySorted_sublist; [apply sublist_filter |].
      apply (StronglySorted_reverse _ _ Hsorted). }
    apply (StronglySorted_app_1_elem_of _ _ _ _ _ Hall Hs Hx).
Qed.

Lemma C3_witness :
  top_out (top_loop topCount ∅ sample_sorted (length sample_sorted) top_start)
  = [call_line func_100_50; call_line iface_100_30].
Proof.
  destruct (C3_ranking_by_three_keys sample_stats sample_sorted ∅) as (_ & H & _).
  - split.
    + apply (Permutation_cons_append [direct_10_3; iface_100_30] func_100_50).
    + repeat constructor.
  - rewrite H. reflexivity.
Defined.

Lemma C4_witness :
  selected topCount sample_sorted = [func_100_50; iface_100_30]
  /\ printed (top_loop topCount ∅ sample_sorted (length sample_sorted) top_start)
     = 2%nat.
Proof.
  destruct (C4_direct_calls_skipped sample_stats sample_sorted ∅) as (_ & H & _).
  - split.
    + apply (Permutation_cons_append [direct_10_3; iface_100_30] func_100_50).
    + repeat constructor.
  - split; [reflexivity | rewrite H; reflexivity].
Defined.

(** ** The pattern as a language

    [match_nonspace] finds a match exactly when the line is a non-empty
    run of bytes outside [\s], the literal, and a rest without newline;
    the groups are that run and that rest. *)

Lemma append_nil_l s : "" ++ s = s.
Proof. reflexivity. Qed.

Lemma append_cons c s r : String c s ++ r = String c (s ++ r).
Proof. reflexivity. Qed.

Lemma append_nil_r s : s ++ "" = s.
Proof.
  induction s as [| c s IH]; [reflexivity |].
  rewrite append_cons, IH. reflexivity.
Qed.

Lemma append_snoc taken c more :
  (taken ++ String c "") ++ more = taken ++ String c more.
Proof.
  induction taken as [| a taken IH]; [reflexivity |].
  rewrite !append_cons, IH. reflexivity.
Qed.

Lemma trim_prefix_spec p : forall s r,
  regexp.trim_prefix p s = Some r <-> s = p ++ r.
Proof.
  induction p as [| a p IH]; intros s r; cbn [regexp.trim_prefix].
  - rewrite append_nil_l. split; congruence.
  - rewrite append_cons. destruct s as [| b s]; [split; discriminate |].
    destruct (Ascii.eqb_spec a b) as [-> | Hab].
    + rewrite IH. split; congruence.
    + split; [discriminate | congruence].
Qed.

Lemma match_tail_spec rest sym :
  regexp.match_tail rest = Some sym
  <-> rest = regexp.literal ++ sym /\ regexp.no_newline sym = true.
Proof.
  unfold regexp.match_tail.
  destruct (regexp.trim_prefix regexp.literal rest) as [sym' |] eqn:Htrim.
  - apply trim_prefix_spec in Htrim. subst rest.
    destruct (regexp.no_newline sym') eqn:Hnl.
    + split; [intros [= ->]; auto |].
      intros [Heq _]. apply (inj (String.append regexp.literal)) in Heq.
      congruence.
    + split; [discriminate |].
      intros [Heq Hnl']. apply (inj (String.append regexp.literal)) in Heq.
      congruence.
  - split; [discriminate |]. intros [Heq _].
    apply trim_prefix_spec in Heq. congruence.
Qed.

Lemma match_stop_spec taken rest p sym :
  (if nonempty taken then
     match regexp.match_tail rest with
     | Some sym => Some (taken, sym)
     | None => None
     end
   else None) = Some (p, sym)
  <-> p = taken /\ nonempty taken = true
      /\ rest = regexp.literal ++ sym /\ regexp.no_newline sym = true.
Proof.
  destruct (nonempty taken).
  - destruct (regexp.match_tail rest) as [sym' |] eqn:Htail.
    + apply match_tail_spec in Htail as [-> Hnl]. split.
      * intros [= <- <-]. auto.
      * intros (-> & _ & Heq & _).
        apply (inj (String.append regexp.literal)) in Heq. congruence.
    + split; [discriminate |]. intros (_ & _ & Heq & Hnl).
      assert (H : regexp.match_tail rest = Some sym)
        by (apply match_tail_spec; auto).
      congruence.
  - split; [discriminate |]. intros (_ & H & _). discriminate.
Qed.

(** After the colon of the literal comes a space, where [\S+] cannot go
    on and the literal cannot start. *)
Lemma match_nonspace_at_space taken rest :
  regexp.match_nonspace taken (String " " rest) = None.
Proof.
  cbn [regexp.match_nonspace]. unfold regexp.match_tail, regexp.literal.
  cbn [regexp.trim_prefix regexp.is_space Ascii.eqb Bool.eqb orb andb].
  destruct (nonempty taken); reflexivity.
Qed.

Lemma match_nonspace_spec rest : forall taken p sym,
  regexp.match_nonspace taken rest = Some (p, sym)
  <-> exists more,
        p = taken ++ more
        /\ rest = more ++ regexp.literal ++ sym
        /\ regexp.all_nonspace more = true
        /\ nonempty p = true
        /\ regexp.no_newline sym = true.
Proof.
  induction rest as [| c rest IH]; intros taken p sym; cbn [regexp.match_nonspace].
  - rewrite match_stop_spec. split.
    + intros (-> & Hne & Hrest & Hnl). exists "".
      rewrite append_nil_r. auto.
    + intros (more & _ & Hrest & _).
      destruct more; discriminate.
  - destruct (regexp.is_space c) eqn:Hspace.
    + rewrite match_stop_spec. split.
      * intros (-> & Hne & Hrest & Hnl). exists "".
        rewrite append_nil_r. auto.
      * intros ([| c' more] & -> & Hrest & Hns & Hne & Hnl).
        -- rewrite append_nil_r in *. auto.
        -- rewrite append_cons in Hrest. injection Hrest as <- _.
           cbn [regexp.all_nonspace] in Hns.
           rewrite Hspace in Hns. discriminate.
    + destruct (regexp.match_nonspace (taken ++ String c "") rest)
        as [[p' sym'] |] eqn:Hrec.
      * split.
        -- intros [= <- <-].
           apply IH in Hrec as (more & -> & -> & Hns & Hne & Hnl).
           exists (String c more). rewrite append_snoc in *.
           rewrite append_cons. cbn [regexp.all_nonspace]. rewrite Hspace. auto.
        -- intros ([| c' more] & -> & Hrest & Hns & Hne & Hnl).
           ++ unfold regexp.literal in Hrest.
              rewrite append_nil_l, append_cons in Hrest.
              injection Hrest as -> ->. rewrite append_cons in Hrec.
              rewrite match_nonspace_at_space in Hrec. discriminate.
           ++ rewrite append_cons in Hrest. injection Hrest as <- ->.
              cbn [regexp.all_nonspace] in Hns. rewrite Hspace in Hns.
              cbn [negb andb] in Hns. rewrite <- Hrec. apply IH.
              exists more. rewrite append_snoc. auto.
      * rewrite match_stop_spec. split.
        -- intros (-> & Hne & Hrest & Hnl). exists "".
           rewrite append_nil_r. auto.
        -- intros ([| c' more] & -> & Hrest & Hns & Hne & Hnl).
           ++ rewrite append_nil_r in *. auto.
           ++ rewrite append_cons in Hrest. injection Hrest as <- ->.
              cbn [regexp.all_nonspace] in Hns. rewrite Hspace in Hns.
              cbn [negb andb] in Hns.
              assert (H : regexp.match_nonspace (taken ++ String c "")
                            (more ++ regexp.literal ++ sym)
                          = Some (taken ++ String c more, sym)).
              { apply IH. exists more. rewrite append_snoc. auto. }
              congruence.
Qed.

(** The three entries of a match, and no match otherwise. *)
Lemma FindStringSubmatch_spec line pos sym :
  regexp.FindStringSubmatch line = [line; pos; sym]
  <-> line = pos ++ regexp.literal ++ sym
      /\ nonempty pos = true
      /\ regexp.all_nonspace pos = true
      /\ regexp.no_newline sym = true.
Proof.
  unfold regexp.FindStringSubmatch.
  pose proof (match_nonspace_spec line "" pos sym) as Hspec.
  destruct (regexp.match_nonspace "" line) as [[p s] |] eqn:Hm.
  - split.
    + intros [= -> ->]. destruct Hspec as [Hspec _].
      destruct (Hspec eq_refl) as (more & -> & -> & ? & ? & ?).
      rewrite append_nil_l in *. auto.
    + intros (Hl & Hne & Hns & Hnl). destruct Hspec as [_ Hspec].
      assert (H : Some (p, s) = Some (pos, sym))
        by (apply Hspec; exists pos; rewrite append_nil_l; auto).
      congruence.
  - split; [discriminate |].
    intros (Hl & Hne & Hns & Hnl). destruct Hspec as [_ Hspec].
    assert (H : None = Some (pos, sym))
      by (apply Hspec; exists pos; rewrite append_nil_l; auto).
    discriminate.
Qed.

(** ** The map of inlined symbols *)

Lemma at_pos_insert (inlined : gmap string (list string)) pos v key :
  at_pos (<[pos := v]> inlined) key
  = if decide (pos = key) then v else at_pos inlined key.
Proof.
  unfold at_pos. rewrite lookup_insert. destruct (decide (pos = key)); reflexivity.
Qed.

Lemma scan_line_inlined cwd syntax stats inlined line key :
  at_pos (scan_line cwd syntax (stats, inlined) line).2 key
  = (at_pos inlined key ++ annotations_at cwd [line] key)%list.
Proof.
  unfold scan_line, annotations_at, regexp.FindStringSubmatch.
  cbn [flat_map]. rewrite app_nil_r.
  destruct (regexp.match_nonspace "" line) as [[pos sym] |];
    cbn [length Nat.eqb nth]; destruct (Unmarshal syntax line zero_CallStat);
    cbn [snd]; rewrite ?app_nil_r; try reflexivity;
    rewrite at_pos_insert; destruct (decide (normalizePos cwd pos = key));
    subst; rewrite ?app_nil_r; reflexivity.
Qed.

Lemma annotations_at_cons cwd line ls key :
  annotations_at cwd (line :: ls) key
  = (annotations_at cwd [line] key ++ annotations_at cwd ls key)%list.
Proof. unfold annotations_at. cbn [flat_map]. rewrite app_nil_r. reflexivity. Qed.

Lemma scan_lines_inlined cwd syntax ls key : forall stats inlined,
  at_pos (fold_left (scan_line cwd syntax) ls (stats, inlined)).2 key
  = (at_pos inlined key ++ annotations_at cwd ls key)%list.
Proof.
  induction ls as [| line ls IH]; intros stats inlined; cbn [fold_left].
  - cbn. rewrite app_nil_r. reflexivity.
  - destruct (scan_line cwd syntax (stats, inlined) line) as [stats' inlined'] eqn:Hl.
    rewrite IH, annotations_at_cons, app_assoc. f_equal.
    change inlined' with (stats', inlined').2. rewrite <- Hl.
    apply scan_line_inlined.
Qed.

Lemma readStats_inlined cwd syntax ls stats inlined key :
  readStats cwd syntax (mkStdin ls None) = (stats, inlined, None) ->
  at_pos inlined key = annotations_at cwd ls key.
Proof.
  rewrite readStats_ok. intros H. injection H as _ <-.
  exact (scan_lines_inlined cwd syntax ls key [] ∅).
Qed.

Lemma annotations_at_not_rooted cwd ls key :
  rooted cwd -> ~ rooted key -> annotations_at cwd ls key = [].
Proof.
  intros Hcwd Hkey. unfold annotations_at.
  induction ls as [| line ls IH]; cbn [flat_map]; [reflexivity |].
  rewrite IH, app_nil_r.
  destruct (regexp.match_nonspace "" line) as [[pos sym] |]; [| reflexivity].
  destruct (decide (normalizePos cwd pos = key)) as [<- |]; [| reflexivity].
  destruct Hkey. apply normalizePos_rooted, Hcwd.
Qed.

(** C2, as the code has it. Under each listed call the loop prints the
    symbols of the inlining lines whose normalized position equals the
    position string of the record as it stands (the record's position is
    not normalized), in the order of the input. For a record with a
    rooted position that is the list under its normalized position; for
    a record with a relative position, the working directory being
    rooted, it is empty. *)
Theorem C2_annotations_by_record_position cwd syntax (ls : list string)
    (stats : list CallStat) (inlined : gmap string (list string))
    (sorted : list CallStat) :
  readStats cwd syntax (mkStdin ls None) = (stats, inlined, None) ->
  (forall key, at_pos inlined key = annotations_at cwd ls key)
  /\ top_out (top_loop topCount inlined sorted (length sorted) top_start)
     = flat_map
         (fun s => call_line s
                   :: map inlined_line (annotations_at cwd ls (Pos s)))
         (selected topCount sorted)
  /\ (forall s, rooted (Pos s) ->
        annotations_at cwd ls (Pos s)
        = annotations_at cwd ls (normalizePos cwd (Pos s)))
  /\ (rooted cwd -> forall s, ~ rooted (Pos s) ->
        annotations_at cwd ls (Pos s) = []).
Proof.
  intros Hread.
  assert (Hat : forall key, at_pos inlined key = annotations_at cwd ls key).
  { intros key. eapply readStats_inlined, Hread. }
  split; [exact Hat |]. split; [| split].
  - rewrite top_loop_out. apply flat_map_ext. intros s.
    unfold print_call. rewrite Hat. reflexivity.
  - intros s Hs. rewrite (normalizePos_of_rooted _ _ Hs). reflexivity.
  - intros Hcwd s Hs. apply annotations_at_not_rooted; assumption.
Qed.

Lemma C2_witness :
  exists inlined,
    readStats "/w" json.parse absolute_input = ([func_100_50], inlined, None)
    /\ top_out (top_loop topCount inlined [func_100_50] 1 top_start)
       = [call_line func_100_50; inlined_line "foo"].
Proof.
  exists (readStats "/w" json.parse absolute_input).1.2.
  assert (Hread : readStats "/w" json.parse absolute_input
                  = ([func_100_50], (readStats "/w" json.parse absolute_input).1.2, None))
    by (vm_compute; reflexivity).
  split; [exact Hread |].
  destruct (C2_annotations_by_record_position "/w" json.parse
              (lines absolute_input) [func_100_50]
              (readStats "/w" json.parse absolute_input).1.2
              [func_100_50] Hread) as (_ & H & _).
  cbn [length] in H. rewrite H. vm_compute. reflexivity.
Defined.

(** C2, as the claim states it, fails on [relative_input] in the working
    directory [/w]: the record's position [a.go:1:1] normalizes to
    [/w/a.go:1:1], under which the map holds the symbol [foo], yet the
    listing shows the call with no inlined line beneath it. *)
Lemma C2_counterexample :
  exists inlined,
    readStats "/w" json.parse relative_input = ([relative_call], inlined, None)
    /\ selected topCount (insertion_sort less [relative_call]) = [relative_call]
    /\ at_pos inlined (normalizePos "/w" (Pos relative_call)) = ["foo"]
    /\ top_out (top_loop topCount inlined (insertion_sort less [relative_call])
                  1 top_start)
       = [call_line relative_call]
    /\ print_call inlined relative_call
       <> call_line relative_call
          :: map inlined_line
               (at_pos inlined (normalizePos "/w" (Pos relative_call))).
Proof.
  exists (readStats "/w" json.parse relative_input).1.2.
  split; [vm_compute; reflexivity |].
  split; [reflexivity |].
  split; [vm_compute; reflexivity |].
  split; [vm_compute; reflexivity |].
  vm_compute. discriminate.
Qed.

(** ** [run] returns *)

(** When the input ends without a read error, [run] prints the summary
    and the listing and returns no error. *)
Lemma run_ok cwd syntax sort_slice stdin stats inlined :
  readStats cwd syntax stdin = (stats, inlined, None) ->
  run cwd syntax sort_slice stdin
  = ((print_sums (aggregate stats)
      ++ print_top (aggregate stats) inlined (sort_slice less stats))%list,
     None).
Proof. intros H. unfold run. rewrite H. reflexivity. Qed.

(** ** Checks of the embedding on sample inputs *)

Example Clean_samples :
  filepath.Clean "" = "."
  /\ filepath.Clean "abc//def//ghi" = "abc/def/ghi"
  /\ filepath.Clean "abc/./def" = "abc/def"
  /\ filepath.Clean "/./abc/def" = "/abc/def"
  /\ filepath.Clean "abc/def/../ghi/../jkl" = "abc/jkl"
  /\ filepath.Clean "abc/def/../../.." = ".."
  /\ filepath.Clean "/abc/def/../../.." = "/"
  /\ filepath.Clean "abc/./../def" = "def"
  /\ filepath.Clean "../../abc" = "../../abc"
  /\ filepath.Clean "/../abc" = "/abc"
  /\ filepath.Clean "..a/.b/..." = "..a/.b/..."
  /\ filepath.Join ["/w"; "./a.go:1:2"] = "/w/a.go:1:2"
  /\ filepath.Join [""; "a/"] = "a"
  /\ filepath.Join ["/w"; ""] = "/w".
Proof. repeat split; reflexivity. Qed.

Example FindStringSubmatch_samples :
  regexp.FindStringSubmatch "./a.go:1:2: inlining call to fmt.Println"
  = ["./a.go:1:2: inlining call to fmt.Println"; "./a.go:1:2"; "fmt.Println"]
  /\ regexp.FindStringSubmatch "a: inlining call to : inlining call to x"
     = ["a: inlining call to : inlining call to x"; "a"; ": inlining call to x"]
  /\ regexp.FindStringSubmatch ": inlining call to x" = []
  /\ regexp.FindStringSubmatch " a: inlining call to x" = []
  /\ regexp.FindStringSubmatch "a.go:1:2: can inline f" = [].
Proof. repeat split; reflexivity. Qed.

Example parse_samples :
  json.parse "{}" = Some (json.Object [])
  /\ json.parse " null " = Some json.Null
  /\ json.parse "" = None
  /\ json.parse "{} {}" = None
  /\ json.parse "[1,]" = None
  /\ json.parse "01" = None
  /\ json.parse (json.quoted "{'Pkg':'p','Direct':true,'Weight':-12,'x':[1,2.5e3]}")
     = Some (json.Object
               [("Pkg", json.Str "p"); ("Direct", json.Bool true);
                ("Weight", json.Number "-12");
                ("x", json.Array [json.Number "1"; json.Number "2.5e3"])]).
Proof. repeat split; reflexivity. Qed.

Example Unmarshal_samples :
  Unmarshal json.parse
    (json.quoted "{'Pkg':'p','Pos':'/w/a.go:1:1','Caller':'p.f','Interface':true,'Weight':100,'Hottest':'T.h','HottestWeight':30,'Devirtualized':'T.h','DevirtualizedWeight':30}")
    zero_CallStat = Some iface_100_30
  /\ Unmarshal json.parse (json.quoted "{'pkg':'p','WEIGHT':7,'Pos':null}") zero_CallStat
     = Some (mkCallStat "p" "" "" false false 7 "" 0 "" 0)
  /\ Unmarshal json.parse (json.quoted "{'Weight':'7'}") zero_CallStat = None
  /\ Unmarshal json.parse (json.quoted "{'Weight':1.5}") zero_CallStat = None
  /\ Unmarshal json.parse (json.quoted "{'Weight':9223372036854775808}") zero_CallStat = None
  /\ Unmarshal json.parse "null" zero_CallStat = Some zero_CallStat
  /\ Unmarshal json.parse "[]" zero_CallStat = None
  /\ Unmarshal json.parse "a.go:1:2: inlining call to f" zero_CallStat = None.
Proof. repeat split; vm_compute; reflexivity. Qed.

(** The first scenario of the specification: one direct call of weight
    10 is counted, and the listing is empty. *)
Example one_direct_call :
  let t := aggregate [direct_10_3] in
  direct (count t) = 1 /\ total (count t) = 1
  /\ top_out (top_loop topCount ∅ (insertion_sort less [direct_10_3]) 1 top_start)
     = [].
Proof. repeat split; reflexivity. Qed.

(** The sample slice sorts to [sample_sorted], whatever the sort. *)
Example sample_sorted_by_insertion :
  insertion_sort less sample_stats = sample_sorted.
Proof. reflexivity. Qed.

(* ================================================================= *)
(** * Further properties of the code *)

(** ** The sums in closed form *)

Lemma add_wrap_r a b : Int64.wrap (a + Int64.wrap b) = Int64.wrap (a + b).
Proof. rewrite Z.add_comm, add_wrap_l, Z.add_comm. reflexivity. Qed.

Lemma add_wrap_wrap a b :
  Int64.add (Int64.wrap a) (Int64.wrap b) = Int64.wrap (a + b).
Proof. unfold Int64.add. rewrite add_wrap_l, add_wrap_r. reflexivity. Qed.

Lemma sum_where_app p f l1 l2 :
  sum_where p f (l1 ++ l2) = sum_where p f l1 + sum_where p f l2.
Proof.
  induction l1 as [| s l1 IH]; cbn [sum_where app]; [reflexivity |].
  rewrite IH. lia.
Qed.

Lemma sum_where_ext p f g l :
  (forall s, p s = true -> f s = g s) -> sum_where p f l = sum_where p g l.
Proof.
  intros Hfg. induction l as [| s l IH]; cbn [sum_where]; [reflexivity |].
  rewrite IH. destruct (p s) eqn:Hp; [rewrite (Hfg s Hp) |]; reflexivity.
Qed.

Lemma aggregate_snoc l s : aggregate (l ++ [s]) = accumulate (aggregate l) s.
Proof. unfold aggregate. rewrite aggregate_from_app. reflexivity. Qed.

(** A component of the sums that starts at zero and to which a record
    satisfying [p] adds [f], and no other record anything, holds the
    wrapped sum of [f] over the records satisfying [p]. *)
Lemma aggregate_component (get : sums -> Z)
    (p : CallStat -> bool) (f : CallStat -> Z) :
  get zero_sums = 0 ->
  (forall t s, get (accumulate t s)
               = if p s then Int64.add (get t) (f s) else get t) ->
  forall l, get (aggregate l) = Int64.wrap (sum_where p f l).
Proof.
  intros Hzero Hstep l. induction l as [| s l IH] using rev_ind.
  - exact Hzero.
  - rewrite aggregate_snoc, Hstep, IH, sum_where_app. cbn [sum_where].
    destruct (p s).
    + unfold Int64.add. rewrite add_wrap_l. f_equal. lia.
    + f_equal. lia.
Qed.

Ltac accumulate_cases :=
  intros; unfold accumulate, is_devirtualized, is_kind, kind_of, hottest_addend;
  repeat match goal with
         | |- context [Direct ?s] => destruct (Direct s)
         | |- context [Interface ?s] => destruct (Interface s)
         | |- context [nonempty ?x] => destruct (nonempty x)
         end;
  reflexivity.

Lemma count_closed k l :
  proj_kind k (count (aggregate l))
  = Int64.wrap (sum_where (is_kind k) (fun _ => 1) l).
Proof.
  destruct k;
    match goal with
    | |- proj_kind ?k' _ = _ =>
        apply (aggregate_component (fun t => proj_kind k' (count t)));
        [reflexivity | accumulate_cases]
    end.
Qed.

Lemma weight_closed k l :
  proj_kind k (weight (aggregate l))
  = Int64.wrap (sum_where (is_kind k) Weight l).
Proof.
  destruct k;
    match goal with
    | |- proj_kind ?k' _ = _ =>
        apply (aggregate_component (fun t => proj_kind k' (weight t)));
        [reflexivity | accumulate_cases]
    end.
Qed.

Lemma hottestWeight_closed k l :
  proj_kind k (hottestWeight (aggregate l))
  = Int64.wrap (sum_where (is_kind k) hottest_addend l).
Proof.
  destruct k;
    match goal with
    | |- proj_kind ?k' _ = _ =>
        apply (aggregate_component (fun t => proj_kind k' (hottestWeight t)));
        [reflexivity | accumulate_cases]
    end.
Qed.

Lemma devirtualizedCount_closed k l :
  proj_kind k (devirtualizedCount (aggregate l))
  = Int64.wrap (sum_where (is_devirtualized k) (fun _ => 1) l).
Proof.
  destruct k;
    match goal with
    | |- proj_kind ?k' _ = _ =>
        apply (aggregate_component (fun t => proj_kind k' (devirtualizedCount t)));
        [reflexivity | accumulate_cases]
    end.
Qed.

Lemma devirtualizedWeight_closed k l :
  proj_kind k (devirtualizedWeight (aggregate l))
  = Int64.wrap (sum_where (is_devirtualized k) DevirtualizedWeight l).
Proof.
  destruct k;
    match goal with
    | |- proj_kind ?k' _ = _ =>
        apply (aggregate_component (fun t => proj_kind k' (devirtualizedWeight t)));
        [reflexivity | accumulate_cases]
    end.
Qed.

(** X1. Each of the fifteen sums in closed form: the count, the weight
    and the hottest-weight sum of a kind are the (wrapped) number of
    records of that kind, the sum of their [Weight] and the sum of what
    the loop adds for them ([Weight] for a direct call, [HottestWeight]
    otherwise); the devirtualized count and weight of a kind range over
    its indirect records with a non-empty [Devirtualized]. *)
Theorem X1_sums_closed_form (stats : list CallStat) (k : kind) :
  proj_kind k (count (aggregate stats))
  = Int64.wrap (sum_where (is_kind k) (fun _ => 1) stats)
  /\ proj_kind k (weight (aggregate stats))
     = Int64.wrap (sum_where (is_kind k) Weight stats)
  /\ proj_kind k (hottestWeight (aggregate stats))
     = Int64.wrap (sum_where (is_kind k) hottest_addend stats)
  /\ proj_kind k (devirtualizedCount (aggregate stats))
     = Int64.wrap (sum_where (is_devirtualized k) (fun _ => 1) stats)
  /\ proj_kind k (devirtualizedWeight (aggregate stats))
     = Int64.wrap (sum_where (is_devirtualized k) DevirtualizedWeight stats).
Proof.
  split; [apply count_closed |]. split; [apply weight_closed |].
  split; [apply hottestWeight_closed |].
  split; [apply devirtualizedCount_closed | apply devirtualizedWeight_closed].
Qed.

(** ** Totals, and sums of slices put together *)

Lemma sum_where_kinds f l :
  sum_where (is_kind KDirect) f l + sum_where (is_kind KIndirectFunc) f l
  + sum_where (is_kind KIndirectMethod) f l
  = sum_where (fun _ => true) f l.
Proof.
  induction l as [| s l IH]; cbn [sum_where]; [reflexivity |].
  rewrite <- IH. unfold is_kind. destruct (kind_of s); lia.
Qed.

Lemma sum_where_ones l :
  sum_where (fun _ => true) (fun _ => 1) l = Z.of_nat (length l).
Proof.
  induction l as [| s l IH]; cbn [sum_where length]; [reflexivity |].
  rewrite IH. lia.
Qed.

Lemma sum_where_bounds p l :
  0 <= sum_where p (fun _ => 1) l <= Z.of_nat (length l).
Proof.
  induction l as [| s l IH]; cbn [sum_where length]; [lia |].
  destruct (p s); lia.
Qed.

Lemma total_closed (x : sum) a b c :
  direct x = Int64.wrap a -> indirectFunc x = Int64.wrap b ->
  indirectMethod x = Int64.wrap c ->
  total x = Int64.wrap (a + b + c).
Proof.
  intros Ha Hb Hc. unfold total. rewrite Ha, Hb, Hc, add_wrap_wrap.
  apply add_wrap_wrap.
Qed.

(** X2. The totals the summary prints: the total count is the number of
    records, whatever their kinds, and the total weight and total
    hottest weight are the sums over all records (wrapped to [int64]). *)
Theorem X2_totals (stats : list CallStat) :
  Z.of_nat (length stats) <= Int64.max_int ->
  total (count (aggregate stats)) = Z.of_nat (length stats)
  /\ total (weight (aggregate stats))
     = Int64.wrap (sum_where (fun _ => true) Weight stats)
  /\ total (hottestWeight (aggregate stats))
     = Int64.wrap (sum_where (fun _ => true) hottest_addend stats).
Proof.
  intros Hlen. split; [| split].
  - rewrite (total_closed _ _ _ _ (count_closed KDirect stats)
               (count_closed KIndirectFunc stats)
               (count_closed KIndirectMethod stats)).
    rewrite sum_where_kinds, sum_where_ones. apply wrap_small.
    unfold Int64.in_range, Int64.min_int, Int64.max_int, Int64.half_modulus in *.
    lia.
  - rewrite (total_closed _ _ _ _ (weight_closed KDirect stats)
               (weight_closed KIndirectFunc stats)
               (weight_closed KIndirectMethod stats)).
    rewrite sum_where_kinds. reflexivity.
  - rewrite (total_closed _ _ _ _ (hottestWeight_closed KDirect stats)
               (hottestWeight_closed KIndirectFunc stats)
               (hottestWeight_closed KIndirectMethod stats)).
    rewrite sum_where_kinds. reflexivity.
Qed.

Lemma X2_witness :
  total (count (aggregate sample_stats)) = 3
  /\ total (weight (aggregate sample_stats)) = 210.
Proof.
  destruct (X2_totals sample_stats) as (H1 & H2 & _).
  - vm_compute. discriminate.
  - split; [exact H1 | rewrite H2; reflexivity].
Defined.

Lemma sums_ext (t u : sums) :
  (forall k, proj_kind k (count t) = proj_kind k (count u)) ->
  (forall k, proj_kind k (weight t) = proj_kind k (weight u)) ->
  (forall k, proj_kind k (hottestWeight t) = proj_kind k (hottestWeight u)) ->
  (forall k, proj_kind k (devirtualizedCount t)
             = proj_kind k (devirtualizedCount u)) ->
  (forall k, proj_kind k (devirtualizedWeight t)
             = proj_kind k (devirtualizedWeight u)) ->
  t = u.
Proof.
  intros H1 H2 H3 H4 H5.
  destruct t as [[] [] [] [] []], u as [[] [] [] [] []].
  pose proof (H1 KDirect). pose proof (H1 KIndirectFunc).
  pose proof (H1 KIndirectMethod). pose proof (H2 KDirect).
  pose proof (H2 KIndirectFunc). pose proof (H2 KIndirectMethod).
  pose proof (H3 KDirect). pose proof (H3 KIndirectFunc).
  pose proof (H3 KIndirectMethod). pose proof (H4 KDirect).
  pose proof (H4 KIndirectFunc). pose proof (H4 KIndirectMethod).
  pose proof (H5 KDirect). pose proof (H5 KIndirectFunc).
  pose proof (H5 KIndirectMethod). cbn in *. congruence.
Qed.

Lemma proj_kind_merge k x y :
  proj_kind k (merge_sum x y) = Int64.add (proj_kind k x) (proj_kind k y).
Proof. destruct k; reflexivity. Qed.

(** X3. The sums of a slice that is the concatenation of two slices are
    the sums of the two, added field by field in [int64]: the loop can
    be run on parts of the records and the results merged. *)
Theorem X3_aggregate_app (l1 l2 : list CallStat) :
  aggregate (l1 ++ l2) = merge_sums (aggregate l1) (aggregate l2).
Proof.
  apply sums_ext; intros k; unfold merge_sums;
    cbn [count weight hottestWeight devirtualizedCount devirtualizedWeight];
    rewrite proj_kind_merge.
  - rewrite !count_closed, sum_where_app, add_wrap_wrap. reflexivity.
  - rewrite !weight_closed, sum_where_app, add_wrap_wrap. reflexivity.
  - rewrite !hottestWeight_closed, sum_where_app, add_wrap_wrap. reflexivity.
  - rewrite !devirtualizedCount_closed, sum_where_app, add_wrap_wrap. reflexivity.
  - rewrite !devirtualizedWeight_closed, sum_where_app, add_wrap_wrap. reflexivity.
Qed.

(** X4. As the loop adds [s.Weight] to [hottestWeight.direct], the
    direct hottest-weight sum always equals the direct weight sum: the
    line "Direct: %d (%.2f%% of direct)" of the hottest-weight breakdown
    prints the direct weight and the percentage of a number in itself. *)
Theorem X4_direct_hottest_is_direct_weight (stats : list CallStat) :
  direct (hottestWeight (aggregate stats)) = direct (weight (aggregate stats))
  /\ In (Printf "\tDirect: %d (%.2f%% of direct)\n"
           [AInt (direct (weight (aggregate stats)));
            AFloat (pct (direct (weight (aggregate stats)))
                        (direct (weight (aggregate stats))))])
        (print_sums (aggregate stats)).
Proof.
  assert (H : direct (hottestWeight (aggregate stats))
              = direct (weight (aggregate stats))).
  { change (proj_kind KDirect (hottestWeight (aggregate stats))
            = proj_kind KDirect (weight (aggregate stats))).
    rewrite hottestWeight_closed, weight_closed. f_equal.
    apply sum_where_ext. intros s Hs. unfold hottest_addend.
    unfold is_kind, kind_of in Hs.
    destruct (Direct s); [reflexivity |].
    destruct (Interface s); discriminate. }
  split; [exact H |].
  unfold print_sums. rewrite H. cbn [In]. do 12 right. left. reflexivity.
Qed.

(** ** What [readStats] returns *)

Lemma scan_lines_stats cwd syntax ls : forall stats inlined,
  (fold_left (scan_line cwd syntax) ls (stats, inlined)).1
  = (stats ++ omap (fun line => Unmarshal syntax line zero_CallStat) ls)%list.
Proof.
  induction ls as [| line ls IH]; intros stats inlined; cbn [fold_left].
  - cbn. rewrite app_nil_r. reflexivity.
  - unfold scan_line at 2. cbn [omap list_omap].
    destruct (Unmarshal syntax line zero_CallStat) as [stat |];
      rewrite IH; [rewrite <- app_assoc |]; reflexivity.
Qed.

Lemma readStats_stats cwd syntax ls :
  (readStats cwd syntax (mkStdin ls None)).1.1
  = omap (fun line => Unmarshal syntax line zero_CallStat) ls.
Proof. rewrite readStats_ok. cbn [fst]. apply scan_lines_stats. Qed.

Lemma length_omap_le {A B} (f : A -> option B) (l : list A) :
  (length (omap f l) <= length l)%nat.
Proof.
  induction l as [| x l IH]; cbn; [lia |].
  destruct (f x); cbn; lia.
Qed.

(** X5. The records [readStats] returns are the lines that decode, each
    decoded on its own into a fresh record, in the order of the input:
    a line that does not decode leaves no trace, whether a line matches
    the inlining pattern plays no part, a line gives at most one record,
    and the records of an input in two parts are those of the first
    part followed by those of the second. *)
Theorem X5_readStats_records cwd syntax (ls ls' : list string) :
  (readStats cwd syntax (mkStdin ls None)).1.1
  = omap (fun line => Unmarshal syntax line zero_CallStat) ls
  /\ (length (readStats cwd syntax (mkStdin ls None)).1.1 <= length ls)%nat
  /\ (readStats cwd syntax (mkStdin (ls ++ ls') None)).1.1
     = ((readStats cwd syntax (mkStdin ls None)).1.1
        ++ (readStats cwd syntax (mkStdin ls' None)).1.1)%list.
Proof.
  rewrite !readStats_stats. split; [reflexivity |].
  split; [apply length_omap_le | apply omap_app].
Qed.

Lemma scan_line_no_empty cwd syntax stats (inlined : gmap string (list string)) line :
  (forall key syms, inlined !! key = Some syms -> syms <> []) ->
  forall key syms,
    (scan_line cwd syntax (stats, inlined) line).2 !! key = Some syms ->
    syms <> [].
Proof.
  intros Hinv key syms. unfold scan_line.
  destruct (length (regexp.FindStringSubmatch line) =? 3)%nat;
    destruct (Unmarshal syntax line zero_CallStat); cbn [snd];
    try apply Hinv;
    (rewrite lookup_insert; destruct (decide _);
     [intros [= <-]; destruct (at_pos inlined _); discriminate | apply Hinv]).
Qed.

Lemma scan_lines_no_empty cwd syntax ls : forall stats (inlined : gmap string (list string)),
  (forall key syms, inlined !! key = Some syms -> syms <> []) ->
  forall key syms,
    (fold_left (scan_line cwd syntax) ls (stats, inlined)).2 !! key = Some syms ->
    syms <> [].
Proof.
  induction ls as [| line ls IH]; intros stats inlined Hinv; cbn [fold_left].
  - exact Hinv.
  - pose proof (scan_line_no_empty cwd syntax stats inlined line Hinv) as Hstep.
    destruct (scan_line cwd syntax (stats, inlined) line) as [stats' inlined'].
    apply IH, Hstep.
Qed.

Lemma annotations_at_nonempty cwd ls key :
  annotations_at cwd ls key <> [] ->
  exists line pos sym,
    line ∈ ls /\ regexp.match_nonspace "" line = Some (pos, sym)
    /\ normalizePos cwd pos = key.
Proof.
  induction ls as [| line ls IH]; [intros H; destruct H; reflexivity |].
  rewrite annotations_at_cons. intros Hne.
  destruct (annotations_at cwd [line] key) as [| sym0 rest] eqn:Hline.
  - destruct (IH Hne) as (line' & pos & sym & Hin & Hm & Hk).
    exists line', pos, sym. split; [right; exact Hin | auto].
  - unfold annotations_at in Hline. cbn [flat_map] in Hline.
    destruct (regexp.match_nonspace "" line) as [[pos sym] |] eqn:Hm;
      [| discriminate].
    destruct (decide (normalizePos cwd pos = key)) as [Hk |]; [| discriminate].
    exists line, pos, sym. split; [left | auto].
Qed.

(** X6. The map [readStats] returns: an entry never holds an empty
    slice; it holds the symbols of the inlining lines whose normalized
    position is its key, in the order of the input; its key is the
    normalized position of some inlining line of the input, hence a
    rooted path when the working directory is one. *)
Theorem X6_inlined_entries cwd syntax (ls : list string)
    (stats : list CallStat) (inlined : gmap string (list string))
    (key : string) (syms : list string) :
  readStats cwd syntax (mkStdin ls None) = (stats, inlined, None) ->
  inlined !! key = Some syms ->
  syms <> []
  /\ syms = annotations_at cwd ls key
  /\ (exists line pos sym,
        line ∈ ls /\ regexp.FindStringSubmatch line = [line; pos; sym]
        /\ normalizePos cwd pos = key)
  /\ (rooted cwd -> rooted key).
Proof.
  intros Hread Hkey.
  assert (Hne : syms <> []).
  { rewrite readStats_ok in Hread. injection Hread as _ <-.
    eapply (scan_lines_no_empty cwd syntax ls [] ∅); [| exact Hkey].
    intros k l Hl. rewrite lookup_empty in Hl. discriminate. }
  assert (Hsyms : syms = annotations_at cwd ls key).
  { rewrite <- (readStats_inlined _ _ _ _ _ key Hread).
    unfold at_pos. rewrite Hkey. reflexivity. }
  assert (Hline : exists line pos sym,
             line ∈ ls /\ regexp.match_nonspace "" line = Some (pos, sym)
             /\ normalizePos cwd pos = key).
  { apply annotations_at_nonempty. rewrite <- Hsyms. exact Hne. }
  split; [exact Hne |]. split; [exact Hsyms |]. split.
  - destruct Hline as (line & pos & sym & Hin & Hm & Hk).
    exists line, pos, sym. unfold regexp.FindStringSubmatch. rewrite Hm. auto.
  - intros Hcwd. destruct Hline as (line & pos & sym & _ & _ & <-).
    apply normalizePos_rooted, Hcwd.
Qed.

Lemma X6_witness :
  (readStats "/w" json.parse absolute_input).1.2 !! "/w/a.go:1:1" = Some ["foo"]
  /\ ["foo"] <> []
  /\ ["foo"] = annotations_at "/w" (lines absolute_input) "/w/a.go:1:1".
Proof.
  assert (Hkey : (readStats "/w" json.parse absolute_input).1.2 !! "/w/a.go:1:1"
                 = Some ["foo"]) by (vm_compute; reflexivity).
  split; [exact Hkey |].
  destruct (X6_inlined_entries "/w" json.parse (lines absolute_input)
              [func_100_50] (readStats "/w" json.parse absolute_input).1.2
              "/w/a.go:1:1" ["foo"]) as (H1 & H2 & _).
  - vm_compute. reflexivity.
  - exact Hkey.
  - split; [exact H1 | exact H2].
Defined.

(** ** The inlining pattern *)

(** X7. [inlinedCallRe] matches exactly the lines made of a non-empty
    run of bytes that are no white space, the text [: inlining call to ]
    and a rest without newline; the two groups are that run and that
    rest, so a line has at most one reading; [FindStringSubmatch]
    returns nothing or the three entries that [readStats] tests for. *)
Theorem X7_inlinedCallRe_language (line : string) :
  (forall pos sym,
     regexp.FindStringSubmatch line = [line; pos; sym]
     <-> line = pos ++ ": inlining call to " ++ sym
         /\ nonempty pos = true
         /\ regexp.all_nonspace pos = true
         /\ regexp.no_newline sym = true)
  /\ (regexp.FindStringSubmatch line = []
      \/ exists pos sym, regexp.FindStringSubmatch line = [line; pos; sym])
  /\ (forall pos sym pos' sym',
        line = pos ++ ": inlining call to " ++ sym ->
        nonempty pos = true -> regexp.all_nonspace pos = true ->
        regexp.no_newline sym = true ->
        line = pos' ++ ": inlining call to " ++ sym' ->
        nonempty pos' = true -> regexp.all_nonspace pos' = true ->
        regexp.no_newline sym' = true ->
        pos = pos' /\ sym = sym').
Proof.
  split; [intros pos sym; apply FindStringSubmatch_spec |]. split.
  - unfold regexp.FindStringSubmatch.
    destruct (regexp.match_nonspace "" line) as [[pos sym] |]; eauto.
  - intros pos sym pos' sym' H1 H2 H3 H4 H1' H2' H3' H4'.
    assert (H : regexp.FindStringSubmatch line = [line; pos; sym])
      by (apply FindStringSubmatch_spec; auto).
    assert (H' : regexp.FindStringSubmatch line = [line; pos'; sym'])
      by (apply FindStringSubmatch_spec; auto).
    rewrite H in H'. injection H' as -> ->. auto.
Qed.

(** ** Decoded weights *)







(** ** The totals of the listing *)

Lemma list_calls_topWeight inlined sel : forall t,
  Int64.in_range (topWeight t) ->
  topWeight (list_calls inlined sel t)
  = Int64.wrap (topWeight t + sum_where (fun _ => true) Weight sel).
Proof.
  induction sel as [| s sel IH]; intros t Ht; cbn [sum_where].
  - rewrite Z.add_0_r, wrap_small by exact Ht. reflexivity.
  - unfold list_calls in *. cbn [fold_left]. rewrite IH.
    + cbn [topWeight list_call]. unfold Int64.add. rewrite add_wrap_l.
      f_equal. lia.
    + cbn [topWeight list_call]. apply wrap_in_range.
Qed.

Lemma list_calls_topHottestWeight inlined sel : forall t,
  Int64.in_range (topHottestWeight t) ->
  topHottestWeight (list_calls inlined sel t)
  = Int64.wrap (topHottestWeight t + sum_where (fun _ => true) HottestWeight sel).
Proof.
  induction sel as [| s sel IH]; intros t Ht; cbn [sum_where].
  - rewrite Z.add_0_r, wrap_small by exact Ht. reflexivity.
  - unfold list_calls in *. cbn [fold_left]. rewrite IH.
    + cbn [topHottestWeight list_call]. unfold Int64.add. rewrite add_wrap_l.
      f_equal. lia.
    + cbn [topHottestWeight list_call]. apply wrap_in_range.
Qed.

Lemma zero_in_range : Int64.in_range 0.
Proof. split; vm_compute; discriminate. Qed.

(** X9. The two totals printed after the listing are the sums of
    [Weight] and of [HottestWeight] over exactly the calls listed
    (wrapped to [int64]), and never more than [topCount] calls are
    listed. *)
Theorem X9_listing_totals (t : sums) (inlined : gmap string (list string))
    (sorted : list CallStat) :
  topWeight (top_loop topCount inlined sorted (length sorted) top_start)
  = Int64.wrap (sum_where (fun _ => true) Weight (selected topCount sorted))
  /\ topHottestWeight (top_loop topCount inlined sorted (length sorted) top_start)
     = Int64.wrap (sum_where (fun _ => true) HottestWeight
                     (selected topCount sorted))
  /\ (printed (top_loop topCount inlined sorted (length sorted) top_start)
      <= topCount)%nat
  /\ In (Printf "Top %d weight: %d (%.2f%% of indirect weight)\n"
           [AInt (Z.of_nat topCount);
            AInt (Int64.wrap (sum_where (fun _ => true) Weight
                                (selected topCount sorted)));
            AFloat (pct (Int64.wrap (sum_where (fun _ => true) Weight
                                       (selected topCount sorted)))
                        (Int64.add (indirectFunc (weight t))
                                   (indirectMethod (weight t))))])
        (print_top t inlined sorted).
Proof.
  assert (Hw : topWeight (top_loop topCount inlined sorted (length sorted) top_start)
               = Int64.wrap (sum_where (fun _ => true) Weight
                               (selected topCount sorted))).
  { rewrite top_loop_selected, list_calls_topWeight by apply zero_in_range.
    reflexivity. }
  split; [exact Hw |]. split; [| split].
  - rewrite top_loop_selected, list_calls_topHottestWeight by apply zero_in_range.
    reflexivity.
  - rewrite top_loop_selected, list_calls_printed. cbn [printed top_start].
    unfold selected. rewrite length_take. lia.
  - unfold print_top. rewrite Hw. apply in_or_app. right.
    apply in_or_app. right. left. reflexivity.
Qed.

(** X10. The listing is in descending order of hottest weight: a call
    listed after another has no greater [HottestWeight], and no call
    that is not direct and is left out of the listing has a greater
    [HottestWeight] than a listed one. *)
Theorem X10_listing_descending (stats sorted : list CallStat) :
  SortSlice less stats sorted ->
  (forall i j a b,
     selected topCount sorted !! i = Some a ->
     selected topCount sorted !! j = Some b ->
     (i < j)%nat -> HottestWeight b <= HottestWeight a)
  /\ (forall a x,
        a ∈ selected topCount sorted -> x ∈ left_out topCount sorted ->
        HottestWeight x <= HottestWeight a).
Proof.
  intros [_ Hsorted].
  assert (Hle : forall a b, less a b = false -> HottestWeight b <= HottestWeight a).
  { intros a b Hab. destruct (Z.lt_ge_cases (HottestWeight a) (HottestWeight b))
      as [Hlt | Hge]; [| lia].
    assert (H : less a b = true) by (apply less_key_lt; left; exact Hlt).
    congruence. }
  split.
  - intros i j a b Hi Hj Hij. apply Hle.
    apply (StronglySorted_lookup _ _
             (selected_StronglySorted topCount _ Hsorted) i j a b Hi Hj Hij).
  - intros a x Ha Hx. apply Hle.
    assert (Hall : StronglySorted (fun a b => less a b = false)
                     (selected topCount sorted ++ left_out topCount sorted)).
    { rewrite selected_left_out.
      eapply StronglySorted_sublist; [apply sublist_filter |].
      apply (StronglySorted_reverse _ _ Hsorted). }
    apply (StronglySorted_app_1_elem_of _ _ _ _ _ Hall Ha Hx).
Qed.

Lemma X10_witness : HottestWeight iface_100_30 <= HottestWeight func_100_50.
Proof.
  destruct (X10_listing_descending sample_stats sample_sorted) as [H _].
  - split.
    + apply (Permutation_cons_append [direct_10_3; iface_100_30] func_100_50).
    + repeat constructor.
  - apply (H 0%nat 1%nat func_100_50 iface_100_30);
      [reflexivity | reflexivity | lia].
Defined.

(** ** The order handed to [sort.Slice] *)

Lemma ltb_total s1 s2 :
  String.ltb s1 s2 = false -> String.ltb s2 s1 = false -> s1 = s2.
Proof.
  unfold String.ltb. rewrite (String.compare_antisym s2 s1).
  destruct (String.compare s1 s2) eqn:Hc; cbn; try discriminate.
  intros _ _. apply String.compare_eq_iff, Hc.
Qed.

Lemma less_incomparable a b :
  less a b = false -> less b a = false ->
  HottestWeight a = HottestWeight b /\ Pkg a = Pkg b /\ Pos a = Pos b.
Proof.
  unfold less.
  destruct (Z.eqb_spec (HottestWeight a) (HottestWeight b)) as [Hw | Hw];
    destruct (Z.eqb_spec (HottestWeight b) (HottestWeight a)) as [Hw' | Hw'];
    try congruence; cbn [negb].
  - destruct (String.eqb_spec (Pkg a) (Pkg b)) as [Hp | Hp];
      destruct (String.eqb_spec (Pkg b) (Pkg a)) as [Hp' | Hp'];
      try congruence; cbn [negb]; intros H1 H2.
    + split; [exact Hw |]. split; [exact Hp |]. apply ltb_total; assumption.
    + destruct Hp. apply ltb_total; assumption.
  - rewrite !Z.ltb_ge. lia.
Qed.

(** X11. The function handed to [sort.Slice] is the strict weak order
    the package asks for: no record is less than itself, less is
    transitive, and two records neither of which is less than the other
    agree on hottest weight, package and position, so that being
    incomparable is transitive too. *)
Theorem X11_less_strict_weak_order :
  (forall a, less a a = false)
  /\ (forall a b c, less a b = true -> less b c = true -> less a c = true)
  /\ (forall a b,
        less a b = false /\ less b a = false
        <-> HottestWeight a = HottestWeight b /\ Pkg a = Pkg b /\ Pos a = Pos b)
  /\ (forall a b c,
        less a b = false -> less b a = false ->
        less b c = false -> less c b = false ->
        less a c = false /\ less c a = false).
Proof.
  assert (Heq : forall a b,
             HottestWeight a = HottestWeight b -> Pkg a = Pkg b -> Pos a = Pos b ->
             less a b = false).
  { intros a b Hw Hp Hs. unfold less.
    rewrite Hw, Z.eqb_refl, Hp, String.eqb_refl, Hs. cbn. apply ltb_irrefl. }
  split; [exact less_irrefl |]. split; [exact less_trans |]. split.
  - intros a b. split.
    + intros [H1 H2]. apply less_incomparable; assumption.
    + intros (Hw & Hp & Hs). split; apply Heq; congruence.
  - intros a b c Hab Hba Hbc Hcb.
    destruct (less_incomparable a b Hab Hba) as (? & ? & ?).
    destruct (less_incomparable b c Hbc Hcb) as (? & ? & ?).
    split; apply Heq; congruence.
Qed.

(** ** Input without records *)

(** X12. When no line of the input decodes (the empty input among
    them), [run] reports no error and prints the 19 lines of the
    summary, the heading of the listing and its two closing lines, with
    no call between them; every percentage printed is the NaN. *)
Theorem X12_no_records cwd syntax sort_slice (ls : list string) :
  Forall (fun line => Unmarshal syntax line zero_CallStat = None) ls ->
  SortSlice less [] (sort_slice less []) ->
  (run cwd syntax sort_slice (mkStdin ls None)).2 = None
  /\ length (run cwd syntax sort_slice (mkStdin ls None)).1 = 22%nat
  /\ Forall (fun f => f = S754_nan)
            (floats_of (run cwd syntax sort_slice (mkStdin ls None)).1).
Proof.
  intros Hnone [Hperm _]. apply Permutation_nil in Hperm.
  assert (Hstats : (readStats cwd syntax (mkStdin ls None)).1.1 = []).
  { rewrite readStats_stats. induction Hnone as [| line ls Hline _ IH]; cbn.
    - reflexivity.
    - rewrite Hline. exact IH. }
  destruct (readStats cwd syntax (mkStdin ls None)) as [[stats inlined] err] eqn:Hread.
  cbn in Hstats. subst stats.
  assert (Herr : err = None).
  { rewrite readStats_ok in Hread. injection Hread as _ _ <-. reflexivity. }
  subst err. rewrite (run_ok _ _ _ _ _ _ Hread), Hperm.
  cbn [fst snd]. split; [reflexivity |]. split.
  - reflexivity.
  - unfold print_top. cbn [length top_loop top_out top_start app].
    vm_compute. repeat constructor.
Qed.

Lemma X12_witness :
  (run "/w" json.parse insertion_sort
     (mkStdin ["# p"; "a.go:1:1: inlining call to foo"] None)).2 = None.
Proof.
  destruct (X12_no_records "/w" json.parse insertion_sort
              ["# p"; "a.go:1:1: inlining call to foo"]) as (H & _).
  - repeat constructor.
  - split; constructor.
  - exact H.
Defined.

(** ** Decoding an object *)

(** X13. Members whose key selects no field of [CallStat] play no part
    in decoding, wherever they stand in the object: the object without
    them decodes to the same record, or fails as the whole object does. *)
Theorem X13_unknown_members_ignored (members : list (string * json.value))
    (s : CallStat) :
  json.decode (json.Object members) s
  = json.decode (json.Object (known_members members)) s.
Proof.
  cbn [json.decode]. revert s.
  induction members as [| [key v] members IH]; intros s; [reflexivity |].
  unfold known_members in *. cbn [List.filter json.decode_members fst].
  destruct (json.find_field key) as [f |] eqn:Hf.
  - cbn [json.decode_members]. rewrite Hf.
    destruct (json.set_field f v s) as [s' |]; cbn; [apply IH | reflexivity].
  - apply IH.
Qed.

Lemma fields_complete f : In f json.fields.
Proof. destruct f; cbn; tauto. Qed.

Lemma folded_names_distinct f g :
  json.foldName (json.field_name f) = json.foldName (json.field_name g) -> f = g.
Proof. destruct f, g; vm_compute; congruence. Qed.

(** X14. A key selects the field whose name it equals up to the case of
    letters, and a key selects at most one field: [find_field] answers
    [f] exactly when the folded key is the folded name of [f]. *)
Theorem X14_keys_match_by_folded_name (key : string) (f : json.field) :
  json.find_field key = Some f
  <-> json.foldName key = json.foldName (json.field_name f).
Proof.
  unfold json.find_field. split.
  - destruct (List.find _ json.fields) as [f0 |] eqn:Hexact.
    + intros [= <-]. apply find_some in Hexact as [_ Heq].
      apply String.eqb_eq in Heq. rewrite Heq. reflexivity.
    + intros Hfold. apply find_some in Hfold as [_ Heq].
      apply String.eqb_eq in Heq. symmetry. exact Heq.
  - intros Hkey.
    destruct (List.find _ json.fields) as [f0 |] eqn:Hexact.
    + apply find_some in Hexact as [_ Heq]. apply String.eqb_eq in Heq.
      f_equal. apply folded_names_distinct. rewrite Heq. exact Hkey.
    + destruct (List.find (fun f0 => _ =? json.foldName key)%string json.fields)
        as [f1 |] eqn:Hfold.
      * apply find_some in Hfold as [_ Heq]. apply String.eqb_eq in Heq.
        f_equal. apply folded_names_distinct. congruence.
      * pose proof (find_none _ _ Hfold f (fields_complete f)) as Hno.
        cbn in Hno. rewrite Hkey, String.eqb_refl in Hno. discriminate.
Qed.

(** ** [normalizePos] undoes what cmd/go does to positions *)

Lemma end_or_sep_segments es : filepath.end_or_sep (segments es) = true.
Proof. destruct es; reflexivity. Qed.

Lemma copy_element_nosep e : forall rest buf,
  forallb (fun c => negb (filepath.IsPathSeparator c)) e = true ->
  filepath.end_or_sep rest = true ->
  filepath.copy_element (e ++ rest) buf = (rest, (rev e ++ buf)%list).
Proof.
  induction e as [| c e IH]; intros rest buf He Hrest.
  - destruct rest as [| c rest]; [reflexivity |].
    cbn in Hrest |- *. rewrite Hrest. reflexivity.
  - cbn [forallb] in He. apply andb_true_iff in He as [Hc He].
    apply negb_true_iff in Hc. cbn [app filepath.copy_element]. rewrite Hc.
    rewrite IH by assumption. cbn [rev]. rewrite <- app_assoc. reflexivity.
Qed.

Lemma is_dot_not_separator c :
  filepath.is_dot c = true -> filepath.IsPathSeparator c = false.
Proof.
  unfold filepath.is_dot. intros H. apply Ascii.eqb_eq in H. subst c. reflexivity.
Qed.

(** At the head of a plain element the loop of [Clean] takes neither
    the [.] case nor the [..] case. *)
Lemma plain_element_cases c e rest :
  plain_element (c :: e) = true ->
  filepath.IsPathSeparator c = false
  /\ forallb (fun c => negb (filepath.IsPathSeparator c)) (c :: e) = true
  /\ filepath.is_dot c && filepath.end_or_sep (e ++ rest) = false
  /\ filepath.is_dot c && filepath.is_dot (hd "/"%char (e ++ rest))
     && filepath.end_or_sep (tl (e ++ rest)) = false.
Proof.
  unfold plain_element. intros H.
  apply andb_true_iff in H as [H Hdd]. apply andb_true_iff in H as [Hall Hd].
  apply negb_true_iff in Hd, Hdd.
  pose proof Hall as Hall'. cbn [forallb] in Hall'.
  apply andb_true_iff in Hall' as [Hc He]. apply negb_true_iff in Hc.
  split; [exact Hc |]. split; [exact Hall |].
  destruct (filepath.is_dot c) eqn:Hdot; [| split; reflexivity].
  destruct e as [| d e]; [cbn in Hd; congruence |].
  cbn [forallb] in He. apply andb_true_iff in He as [Hdsep He].
  apply negb_true_iff in Hdsep.
  cbn [app hd tl filepath.end_or_sep andb]. split; [exact Hdsep |].
  destruct (filepath.is_dot d) eqn:Hdot'; [| reflexivity].
  destruct e as [| x e]; [cbn in Hdd; rewrite Hdot, Hdot' in Hdd; discriminate |].
  cbn [forallb] in He. apply andb_true_iff in He as [Hx _].
  apply negb_true_iff in Hx. cbn. exact Hx.
Qed.

Lemma plain_element_nonempty e : plain_element e = true -> e <> [].
Proof. destruct e; [discriminate | discriminate]. Qed.

Lemma rooted_chars_length ws :
  Forall (fun e => plain_element e = true) ws ->
  (length (rev (rooted_chars ws)) =? 1)%nat
  = match ws with [] => true | _ :: _ => false end.
Proof.
  intros Hws. rewrite length_rev. destruct ws as [| w ws]; [reflexivity |].
  apply Forall_cons in Hws as [Hw _]. destruct w as [| c w]; [discriminate |].
  reflexivity.
Qed.

Lemma rooted_chars_snoc ws e :
  Forall (fun e => plain_element e = true) ws ->
  rev (rooted_chars (ws ++ [e]))
  = (rev e ++ (if negb (length (rev (rooted_chars ws)) =? 1)%nat
               then filepath.Separator :: rev (rooted_chars ws)
               else rev (rooted_chars ws)))%list.
Proof.
  intros Hws. rewrite (rooted_chars_length ws Hws).
  destruct ws as [| w ws].
  - cbn [app rooted_chars segments flat_map negb rev].
    rewrite !app_nil_r. reflexivity.
  - cbn [negb]. change (rooted_chars ((w :: ws) ++ [e]))
      with (segments ((w :: ws) ++ [e])).
    change (rooted_chars (w :: ws)) with (segments (w :: ws)).
    unfold segments. rewrite flat_map_app. cbn [flat_map].
    rewrite app_nil_r, rev_app_distr. cbn [rev]. rewrite <- app_assoc.
    reflexivity.
Qed.

(** The loop of [Clean] on a rooted path whose elements are empty, [.]
    or plain: it writes the plain elements and nothing else. [ws] are
    the elements written before. *)
Lemma clean_segments segs : forall ws fuel,
  Forall (fun e => e = [] \/ is_dot_element e = true \/ plain_element e = true)
         segs ->
  Forall (fun e => plain_element e = true) ws ->
  (length (segments segs) <= fuel)%nat ->
  filepath.clean_loop fuel true (segments segs) (rev (rooted_chars ws)) 1
  = rev (rooted_chars (ws ++ List.filter plain_element segs)).
Proof.
  induction segs as [| seg segs IH]; intros ws fuel Hsegs Hws Hfuel.
  - cbn [List.filter]. rewrite app_nil_r. destruct fuel; reflexivity.
  - apply Forall_cons in Hsegs as [Hseg Hsegs].
    change (segments (seg :: segs))
      with (filepath.Separator :: seg ++ segments segs)%list in *.
    cbn [length] in Hfuel. rewrite List.length_app in Hfuel.
    destruct fuel as [| fuel]; [lia |].
    cbn [filepath.clean_loop].
    change (filepath.IsPathSeparator filepath.Separator) with true. cbv iota.
    destruct Hseg as [-> | [Hdot | Hplain]].
    + cbn [app List.filter plain_element]. apply IH; [assumption .. |].
      cbn [length] in Hfuel. lia.
    + destruct seg as [| c [| d seg]]; try discriminate.
      cbn [is_dot_element] in Hdot.
      assert (Hnot : plain_element [c] = false).
      { cbn. rewrite Hdot. rewrite andb_false_r. reflexivity. }
      cbn [List.filter]. rewrite Hnot. cbn [app length] in Hfuel |- *.
      destruct fuel as [| fuel]; [lia |].
      cbn [filepath.clean_loop].
      rewrite (is_dot_not_separator c Hdot), Hdot, end_or_sep_segments.
      cbn [andb]. apply IH; [assumption .. | lia].
    + destruct seg as [| c seg]; [discriminate |].
      destruct (plain_element_cases c seg (segments segs) Hplain)
        as (Hc & Hall & Hcase2 & Hcase3).
      cbn [List.filter]. rewrite Hplain. cbn [app length] in Hfuel |- *.
      destruct fuel as [| fuel]; [lia |].
      cbn [filepath.clean_loop]. rewrite Hc, Hcase2, Hcase3.
      cbn [negb andb orb]. rewrite orb_false_r.
      change (c :: (seg ++ segments segs)%list)
        with ((c :: seg) ++ segments segs)%list.
      rewrite (copy_element_nosep (c :: seg) _ _ Hall (end_or_sep_segments segs)).
      rewrite <- (rooted_chars_snoc ws (c :: seg) Hws).
      rewrite (IH (ws ++ [c :: seg])%list fuel); [| assumption | | lia].
      * rewrite <- app_assoc. reflexivity.
      * apply Forall_app. split; [assumption | constructor; [assumption | constructor]].
Qed.

Lemma string_of_list_ascii_app l1 l2 :
  string_of_list_ascii (l1 ++ l2)
  = string_of_list_ascii l1 ++ string_of_list_ascii l2.
Proof.
  induction l1 as [| c l1 IH]; [reflexivity |].
  cbn [app string_of_list_ascii]. rewrite append_cons, IH. reflexivity.
Qed.

Lemma rooted_chars_segments ws :
  rooted_chars ws = segments (match ws with [] => [[]] | _ :: _ => ws end).
Proof. destruct ws; reflexivity. Qed.

Lemma separator_tl_segments es :
  (filepath.Separator :: tl (segments es))%list
  = segments (match es with [] => [[]] | _ :: _ => es end).
Proof. destruct es; reflexivity. Qed.

Lemma rooted_chars_cons ws :
  rooted_chars ws = (filepath.Separator :: tl (rooted_chars ws))%list.
Proof. destruct ws; reflexivity. Qed.

Lemma filter_plain_all ws :
  Forall (fun e => plain_element e = true) ws ->
  List.filter plain_element ws = ws.
Proof.
  induction 1 as [| w ws Hw _ IH]; cbn [List.filter]; [reflexivity |].
  rewrite Hw, IH. reflexivity.
Qed.

Lemma filter_plain_or_root ws :
  Forall (fun e => plain_element e = true) ws ->
  List.filter plain_element (match ws with [] => [[]] | _ :: _ => ws end) = ws.
Proof.
  intros Hws. destruct ws as [| w ws]; [reflexivity |].
  apply filter_plain_all, Hws.
Qed.

Lemma simple_plain_or_root ws :
  Forall (fun e => plain_element e = true) ws ->
  Forall (fun e => e = [] \/ is_dot_element e = true \/ plain_element e = true)
         (match ws with [] => [[]] | _ :: _ => ws end).
Proof.
  intros Hws. destruct ws as [| w ws]; [repeat constructor |].
  eapply Forall_impl; [exact Hws |]. cbn. auto.
Qed.

(** [Clean] on a rooted path whose elements are empty, [.] or plain
    returns the rooted path of the plain elements. *)
Lemma Clean_segments segs :
  segs <> [] ->
  Forall (fun e => e = [] \/ is_dot_element e = true \/ plain_element e = true)
         segs ->
  filepath.Clean (string_of_list_ascii (segments segs))
  = rooted_path (List.filter plain_element segs).
Proof.
  intros Hne Hsegs. destruct segs as [| seg segs]; [contradiction |].
  pose proof (clean_segments (seg :: segs) [] (length (segments (seg :: segs)))
                Hsegs ltac:(constructor) (Nat.le_refl _)) as Hloop.
  unfold filepath.Clean. rewrite list_ascii_of_string_of_list_ascii.
  change (segments (seg :: segs))
    with (filepath.Separator :: seg ++ segments segs)%list in *.
  cbv iota. change (filepath.IsPathSeparator filepath.Separator) with true.
  cbv iota. cbn [length filepath.clean_loop] in Hloop.
  change (filepath.IsPathSeparator filepath.Separator) with true in Hloop.
  cbv iota in Hloop. cbn [rooted_chars rev app] in Hloop.
  rewrite Hloop. unfold rooted_path.
  destruct (rev (rooted_chars (List.filter plain_element (seg :: segs))))
    as [| c buf] eqn:Hbuf.
  - apply (f_equal (@length ascii)) in Hbuf.
    rewrite length_rev, rooted_chars_cons in Hbuf. discriminate.
  - rewrite <- Hbuf, rev_involutive. reflexivity.
Qed.

(** Joining the rooted path of plain elements with a relative path. *)
Lemma Join_rooted_path dir chars segs :
  Forall (fun e => plain_element e = true) dir ->
  (filepath.Separator :: chars)%list = segments segs ->
  Forall (fun e => e = [] \/ is_dot_element e = true \/ plain_element e = true)
         segs ->
  filepath.Join [rooted_path dir; string_of_list_ascii chars]
  = rooted_path (dir ++ List.filter plain_element segs).
Proof.
  intros Hdir Hchars Hsegs.
  assert (Hpath : filepath.join_sep [rooted_path dir; string_of_list_ascii chars]
                  = string_of_list_ascii
                      (segments (match dir with [] => [[]] | _ :: _ => dir end
                                 ++ segs))).
  { unfold segments. rewrite flat_map_app. fold (segments segs).
    rewrite <- Hchars, string_of_list_ascii_app.
    fold (segments (match dir with [] => [[]] | _ :: _ => dir end)).
    rewrite <- rooted_chars_segments. reflexivity. }
  unfold rooted_path at 1. rewrite rooted_chars_cons.
  cbn [string_of_list_ascii filepath.Join nonempty].
  change (String filepath.Separator (string_of_list_ascii (tl (rooted_chars dir))))
    with (string_of_list_ascii (filepath.Separator :: tl (rooted_chars dir))).
  rewrite <- rooted_chars_cons. fold (rooted_path dir). rewrite Hpath.
  rewrite Clean_segments.
  - rewrite List.filter_app, (filter_plain_or_root dir Hdir). reflexivity.
  - destruct dir; discriminate.
  - apply Forall_app. split; [apply simple_plain_or_root, Hdir | exact Hsegs].
Qed.

(** X15. cmd/go prints the file [dir/rel] of the working directory [dir]
    as [./rel]; [normalizePos] gives the absolute name back. For a
    working directory and a relative position made of plain elements
    (not empty, without separator, neither [.] nor [..]), the position
    written with or without the leading [./] normalizes to the rooted
    path of the directory's elements followed by the position's. *)
Theorem X15_normalizePos_undoes_relative (dir rel : list (list ascii)) :
  Forall (fun e => plain_element e = true) dir ->
  Forall (fun e => plain_element e = true) rel ->
  normalizePos (rooted_path dir) (String "."%char (String "/"%char (relative_path rel)))
  = rooted_path (dir ++ rel)
  /\ normalizePos (rooted_path dir) (relative_path rel) = rooted_path (dir ++ rel).
Proof.
  intros Hdir Hrel. split.
  - unfold normalizePos. cbv iota. change (Ascii.eqb "."%char "/"%char) with false.
    cbv iota.
    change (String "."%char (String "/"%char (relative_path rel)))
      with (string_of_list_ascii
              ("."%char :: filepath.Separator :: tl (segments rel))).
    rewrite (Join_rooted_path dir _
               ([["."%char]] ++ match rel with [] => [[]] | _ :: _ => rel end)).
    + rewrite List.filter_app, (filter_plain_or_root rel Hrel). reflexivity.
    + exact Hdir.
    + unfold segments at 2. rewrite flat_map_app.
      fold (segments (match rel with [] => [[]] | _ :: _ => rel end)).
      rewrite <- separator_tl_segments. reflexivity.
    + apply Forall_app. split; [| apply simple_plain_or_root, Hrel].
      constructor; [right; left; reflexivity | constructor].
  - assert (Hjoin : filepath.Join [rooted_path dir; relative_path rel]
                    = rooted_path (dir ++ rel)).
    { unfold relative_path.
      rewrite (Join_rooted_path dir _ (match rel with [] => [[]] | _ :: _ => rel end)).
      - rewrite (filter_plain_or_root rel Hrel). reflexivity.
      - exact Hdir.
      - apply separator_tl_segments.
      - apply simple_plain_or_root, Hrel. }
    unfold normalizePos.
    destruct (relative_path rel) as [| c rest] eqn:Hpos; [exact Hjoin |].
    destruct rel as [| [| c' e] rel']; [discriminate | |].
    + apply Forall_cons in Hrel as [He _]. discriminate.
    + apply Forall_cons in Hrel as [He _].
      destruct (plain_element_cases c' e [] He) as (Hc & _).
      unfold relative_path in Hpos. cbn in Hpos. injection Hpos as <- _.
      change (Ascii.eqb c' "/"%char) with (filepath.IsPathSeparator c').
      rewrite Hc. exact Hjoin.
Qed.

Lemma X15_witness :
  normalizePos "/home/u" "./pkg/a.go:3:7" = "/home/u/pkg/a.go:3:7"
  /\ normalizePos "/home/u" "pkg/a.go:3:7" = "/home/u/pkg/a.go:3:7".
Proof.
  apply (X15_normalizePos_undoes_relative
           [list_ascii_of_string "home"; list_ascii_of_string "u"]
           [list_ascii_of_string "pkg"; list_ascii_of_string "a.go:3:7"]).
  - repeat constructor.
  - repeat constructor.
Defined.
